(** * A shallow embedding of the paella-player presentation core

    The development follows the two TypeScript modules of the player:
    [src/app/components/player/Paella.tsx] (offset parsing, track
    classification, manifest construction) and
    [src/app/components/player/index.tsx] (timer delay, live-state branch,
    aspect ratio).

    Representation choices.
    - JavaScript strings are [string]s.  Every character the code inspects
      ("/", ".m3u8", digits, "h", "m", "s") is ASCII, so reading a string
      byte-wise or code-unit-wise selects the same positions.
    - Epoch milliseconds and timer delays are [Z].  They coincide with the
      JavaScript numbers as long as magnitudes stay below 2^53, where double
      arithmetic on integers is exact.
    - The counts of a playback offset and their total are read from the page
      address, which can hold any number of digits; they are [integral]s:
      the doubles that are non-negative integers, and [Infinity], with the
      rounding of double arithmetic.
    - A TypeScript [number] that may be fractional or NaN (durations,
      resolutions) is a [number]: NaN or a rational.
    - [null]/[undefined] are [None].
    - A thrown exception is the [Throw] case of [result]. *)

From Stdlib Require Import ZArith QArith List String Ascii Bool Lia Arith.
From Stdlib Require Import Permutation Sorted.
From Stdlib Require Import DecimalString DecimalNat.
Import ListNotations.

Close Scope Q_scope.
Open Scope Z_scope.

(** ** JavaScript values *)

Module JS.

(** A [number]: a finite value, given by the rational it denotes, or [NaN],
    which also stands for the infinities. *)
Inductive number : Type :=
| NaN
| Num (q : Q).

(** [x === 0] on numbers (false on NaN). *)
Definition is_zero (x : number) : bool :=
  match x with
  | NaN => false
  | Num q => Qeq_bool q 0
  end.

(** [x - y]. *)
Definition sub (x y : number) : number :=
  match x, y with
  | Num a, Num b => Num (a - b)
  | _, _ => NaN
  end.

(** [x / y]; a zero divisor gives a non-finite result. *)
Definition div (x y : number) : number :=
  match x, y with
  | Num a, Num b => if Qeq_bool b 0 then NaN else Num (a / b)
  | _, _ => NaN
  end.

(** An integer as a [number]. *)
Definition of_Z (z : Z) : number := Num (inject_Z z).

(** Exceptions raised by the language itself. *)
Inductive exn : Type :=
| TypeError (msg : string).

Inductive result (A : Type) : Type :=
| Ok (a : A)
| Throw (e : exn).

Arguments Ok {A} a.
Arguments Throw {A} e.

Definition bind {A B : Type} (r : result A) (k : A -> result B) : result B :=
  match r with
  | Ok a => k a
  | Throw e => Throw e
  end.

(** Truthiness of a [string | null | undefined] value: only a non-empty
    string is truthy. *)
Definition truthy (v : option string) : bool :=
  match v with
  | Some (String _ _) => true
  | _ => false
  end.

(** [s.endsWith(suffix)]. *)
Definition endsWith (s suffix : string) : bool :=
  (String.length suffix <=? String.length s)%nat &&
  String.eqb
    (substring (String.length s - String.length suffix) (String.length suffix) s)
    suffix.

(** [s.split(sep)] for a one-character separator. *)
Fixpoint split (sep : ascii) (s : string) : list string :=
  match s with
  | EmptyString => [EmptyString]
  | String c s' =>
      if Ascii.eqb c sep then EmptyString :: split sep s'
      else match split sep s' with
           | piece :: pieces => String c piece :: pieces
           | [] => [String c EmptyString]
           end
  end.

(** [a[i]] on an array of strings that is known to be long enough for the
    index used (the first piece of a [split] always exists). *)
Definition first_piece (pieces : list string) : string :=
  match pieces with
  | piece :: _ => piece
  | [] => EmptyString
  end.

(** [\d] in a regular expression: the ASCII digits. *)
Definition is_digit (c : ascii) : bool :=
  (48 <=? nat_of_ascii c)%nat && (nat_of_ascii c <=? 57)%nat.

Definition digit_value (c : ascii) : Z := Z.of_nat (nat_of_ascii c) - 48.

(** [parseInt(s)] on a string that starts with a decimal digit: the value of
    the leading digit run.  (On other strings JavaScript skips blanks, reads a
    sign or a 0x prefix, or answers NaN; the captures of [(\d+)] it is applied
    to here always start with a digit.) *)
Fixpoint parseInt_from (acc : Z) (s : string) : Z :=
  match s with
  | String c s' =>
      if is_digit c then parseInt_from (10 * acc + digit_value c) s' else acc
  | EmptyString => acc
  end.

Definition parseInt (s : string) : Z := parseInt_from 0 s.

(** The numbers the offset arithmetic can produce: a double that is a
    non-negative integer, given by that integer, or [Infinity]. *)
Inductive integral : Type :=
| Finite (value : Z)
| Infinity.

(** The number for a non-negative integer: the nearest double, a tie going
    to the even significand, and [Infinity] when that is 2^1024.  The 53 bits
    of a significand hold every integer up to 2^53 as it is. *)
Definition to_double (n : Z) : integral :=
  let e := Z.log2 n - 52 in
  if e <=? 0 then Finite n
  else
    let q := Z.shiftr n e in
    let r := n - Z.shiftl q e in
    let half := Z.shiftl 1 (e - 1) in
    let q' := if r <? half then q
              else if half <? r then q + 1
              else if Z.even q then q else q + 1 in
    if Z.shiftl q' e <? 2 ^ 1024 then Finite (Z.shiftl q' e) else Infinity.

(** The number [parseInt(s)] answers: the double for the integer of the
    digit run (the engines round it correctly, however many digits). *)
Definition parseInt_number (s : string) : integral := to_double (parseInt s).

(** [x * k] for a finite constant [k > 0]. *)
Definition times (x : integral) (k : Z) : integral :=
  match x with
  | Finite a => to_double (a * k)
  | Infinity => Infinity
  end.

(** [x + y]. *)
Definition plus (x y : integral) : integral :=
  match x, y with
  | Finite a, Finite b => to_double (a + b)
  | _, _ => Infinity
  end.

(** A stable sort by a comparator that answers a number, negative when its
    first argument goes first: what [Array.prototype.sort] computes for a
    consistent comparator (the language requires the sort to be stable, so the
    result does not depend on the algorithm). *)
Fixpoint sort_insert {A : Type} (cmp : A -> A -> Z) (x : A) (l : list A) : list A :=
  match l with
  | [] => [x]
  | y :: l' => if cmp x y <=? 0 then x :: l else y :: sort_insert cmp x l'
  end.

Definition sort {A : Type} (cmp : A -> A -> Z) (l : list A) : list A :=
  fold_right (sort_insert cmp) [] l.

(** [Number(v)] for [boolean | null]. *)
Definition Number_of_flag (v : option bool) : Z :=
  match v with
  | Some true => 1
  | _ => 0
  end.

(** [`${n}`] for a non-negative integer. *)
Definition string_of_nat (n : nat) : string :=
  NilZero.string_of_uint (Nat.to_uint n).

End JS.

Import JS.

(** ** Paella.tsx: the offset parser *)

(** The longest run of [\d] at the start of the input, and what follows it. *)
Fixpoint digits_prefix (s : string) : string * string :=
  match s with
  | String c s' =>
      if is_digit c
      then let (d, r) := digits_prefix s' in (String c d, r)
      else (EmptyString, s)
  | EmptyString => (EmptyString, EmptyString)
  end.

(** One optional group [((\d+)u)?] tried at the start of the input: the
    capture of [(\d+)] ([None] when the group does not take part) and the
    input left.  A shorter digit run can never be followed by [u], so the
    greedy run is the only candidate. *)
Definition optional_group (u : ascii) (s : string) : option string * string :=
  match digits_prefix s with
  | (String d ds, String c rest) =>
      if Ascii.eqb c u then (Some (String d ds), rest) else (None, s)
  | _ => (None, s)
  end.

Definition whole_group (u : ascii) (capture : option string) : option string :=
  match capture with
  | Some d => Some (d ++ String u EmptyString)%string
  | None => None
  end.

Definition matched_text (groups : list (option string)) : string :=
  fold_right (fun g acc => match g with Some x => (x ++ acc)%string | None => acc end)
             EmptyString groups.

(** [/((\d+)h)?((\d+)m)?((\d+)s)?/.exec(timeString)]: the match array
    (index 0 the matched text, 1..6 the captures).  Every group is optional,
    so the attempt at position 0 always succeeds and [exec] never answers
    [null]. *)
Definition timeSplit_exec (timeString : string) : option (list (option string)) :=
  let (h, s1) := optional_group "h" timeString in
  let (m, s2) := optional_group "m" s1 in
  let (s, _) := optional_group "s" s2 in
  let g1 := whole_group "h" h in
  let g3 := whole_group "m" m in
  let g5 := whole_group "s" s in
  Some [Some (matched_text [g1; g3; g5]); g1; h; g3; m; g5; s].

(** [timeSplit[i]] ([undefined] past the end). *)
Definition capture (timeSplit : list (option string)) (i : nat) : option string :=
  nth i timeSplit None.

Definition timeStringToSeconds (timeString : string) : integral :=
  let timeSplit := timeSplit_exec timeString in
  (* [timeSplit && timeSplit[i]] *)
  let group (i : nat) : option string :=
    match timeSplit with
    | Some arr => capture arr i
    | None => None
    end in
  let hours :=
    match group 2%nat with
    | Some d => if truthy (Some d)
                then times (times (parseInt_number d) 60) 60 else Finite 0
    | None => Finite 0
    end in
  let minutes :=
    match group 4%nat with
    | Some d => if truthy (Some d) then times (parseInt_number d) 60 else Finite 0
    | None => Finite 0
    end in
  let seconds :=
    match group 6%nat with
    | Some d => if truthy (Some d) then parseInt_number d else Finite 0
    | None => Finite 0
    end in
  plus (plus hours minutes) seconds.

(** ** The data model (both modules declare the same types) *)

Record Track : Type := {
  uri : string;
  flavor : string;
  mimetype : option string;
  resolution : option (list number);
  isMaster : option bool;
}.

Record Caption : Type := {
  caption_uri : string;
  caption_lang : option string;
}.

Record SyncedData : Type := {
  updated : string;
  startTime : option string;
  endTime : option string;
  duration : number;
  tracks : list Track;
  captions : list Caption;
  thumbnail : option string;
}.

Record PlayerEvent : Type := {
  title : string;
  created : string;
  isLive : bool;
  syncedData : SyncedData;
}.

(** What the playback engine receives (paella-core's [Source], [Stream],
    caption entry and [Manifest], restricted to the fields the player fills). *)
Record Source : Type := {
  src : string;
  source_mimetype : string;
  res_w : option number;
  res_h : option number;
}.

(** [Stream["sources"]]: an object keyed by delivery format.  Its keys are
    never array indices, so it is kept as the list of its entries in creation
    order. *)
Definition Sources : Type := list (string * list Source).

Record Stream : Type := {
  content : string;
  sources : Sources;
  role : option string;
}.

Record ManifestCaption : Type := {
  format : string;
  url : string;
  lang : option string;
  text : string;
}.

Record Metadata : Type := {
  metadata_title : string;
  metadata_duration : number;
  preview : option string;
}.

Record Manifest : Type := {
  metadata : Metadata;
  streams : list Stream;
  manifest_captions : list ManifestCaption;
}.

(** A call of [console.warn(message, tracks)]. *)
Inductive Diagnostic : Type :=
| console_warn (message : string) (logged : list Track).

(** ** Paella.tsx: track classification *)

Definition isHlsTrack (t : Track) : bool :=
  match mimetype t with
  | Some m => String.eqb m "application/x-mpegURL"
  | None => false
  end
  || endsWith (uri t) ".m3u8".

Definition trackToSource (t : Track) : Source :=
  let wh := match resolution t with
            | Some r => r
            | None => [of_Z 0; of_Z 0]
            end in
  {| src := uri t;
     source_mimetype := "video/mp4";
     res_w := nth_error wh 0;
     res_h := nth_error wh 1 |}.

(** The comparator handed to [sort]: [Number(b.isMaster) - Number(a.isMaster)]. *)
Definition master_first (a b : Track) : Z :=
  Number_of_flag (isMaster b) - Number_of_flag (isMaster a).

Definition hlsTracks (tracks : list Track) : list Track :=
  JS.sort master_first (filter isHlsTrack tracks).

Definition mp4Tracks (tracks : list Track) : list Track :=
  filter (fun t => negb (isHlsTrack t)) tracks.

Definition hlsKey (isLive : bool) : string :=
  if isLive then "hlsLive" else "hls".

(** The object literal with its two conditional spreads: a key is present
    exactly when its track list is not empty. *)
Definition tracksToPaellaSources (tracks : list Track) (isLive : bool) : Sources :=
  (if (0 <? List.length (mp4Tracks tracks))%nat
   then [("mp4"%string, map trackToSource (mp4Tracks tracks))] else [])
  ++
  (if (0 <? List.length (hlsTracks tracks))%nat
   then [(hlsKey isLive, map trackToSource (hlsTracks tracks))] else []).

(** ** Paella.tsx: the [tracksByKind] object *)

(** An ordinary object created by [{}]: its own properties in creation order.
    Lookups that miss fall through to [Object.prototype]. *)
Definition Obj (V : Type) : Type := list (string * V).

(** The property names every object inherits from [Object.prototype]. *)
Definition Object_prototype_keys : list string :=
  ["constructor"; "__defineGetter__"; "__defineSetter__"; "hasOwnProperty";
   "__lookupGetter__"; "__lookupSetter__"; "isPrototypeOf";
   "propertyIsEnumerable"; "toString"; "valueOf"; "__proto__";
   "toLocaleString"]%string.

Definition inherited (key : string) : bool :=
  existsb (String.eqb key) Object_prototype_keys.

Fixpoint get_own {V : Type} (key : string) (o : Obj V) : option V :=
  match o with
  | [] => None
  | (k, v) :: o' => if String.eqb k key then Some v else get_own key o'
  end.

Definition has_own {V : Type} (key : string) (o : Obj V) : bool :=
  match get_own key o with
  | Some _ => true
  | None => false
  end.

(** [key in o]: own or inherited. *)
Definition has_property {V : Type} (key : string) (o : Obj V) : bool :=
  has_own key o || inherited key.

(** Replaces the value of an own property in place. *)
Fixpoint update_own {V : Type} (key : string) (v : V) (o : Obj V) : Obj V :=
  match o with
  | [] => []
  | (k, w) :: o' =>
      if String.eqb k key then (k, v) :: o' else (k, w) :: update_own key v o'
  end.

(** [o[key] = v] for a key that is not inherited: an own property is
    overwritten where it stands, a new one is created last. *)
Definition set_property {V : Type} (key : string) (v : V) (o : Obj V) : Obj V :=
  if has_own key o then update_own key v o else o ++ [(key, v)].

Fixpoint all_digits (s : string) : bool :=
  match s with
  | EmptyString => true
  | String c s' => is_digit c && all_digits s'
  end.

(** The array index a property key denotes, if any: a canonical decimal
    numeral (no leading zero) below 2^32 - 1. *)
Definition array_index (key : string) : option Z :=
  match key with
  | EmptyString => None
  | String c rest =>
      if all_digits key
         && (negb (Ascii.eqb c "0") || String.eqb rest EmptyString)
         && (String.length key <=? 10)%nat
         && (parseInt key <=? 4294967294)
      then Some (parseInt key)
      else None
  end.

Definition is_array_index (key : string) : bool :=
  match array_index key with
  | Some _ => true
  | None => false
  end.

Definition index_order {V : Type} (a b : string * V) : Z :=
  match array_index (fst a), array_index (fst b) with
  | Some i, Some j => i - j
  | _, _ => 0
  end.

(** [Object.entries(o)]: the own properties, array-index keys first in
    ascending numeric order, then the other keys in creation order. *)
Definition Object_entries {V : Type} (o : Obj V) : list (string * V) :=
  JS.sort index_order (filter (fun p => is_array_index (fst p)) o)
  ++ filter (fun p => negb (is_array_index (fst p))) o.

(** The kind of a track: [track.flavor.split("/")[0]]. *)
Definition kind_of (track : Track) : string :=
  first_piece (split "/" (flavor track)).

(** One iteration of the grouping loop.  When [kind] is found by [in] only
    through the prototype, no array is created, and [tracksByKind[kind]] is
    the inherited member, which has no [push]: calling it throws. *)
Definition group_step (tracksByKind : Obj (list Track)) (track : Track)
  : result (Obj (list Track)) :=
  let kind := kind_of track in
  let tracksByKind :=
    if negb (has_property kind tracksByKind)
    then set_property kind [] tracksByKind
    else tracksByKind in
  match get_own kind tracksByKind with
  | Some arr => Ok (update_own kind (arr ++ [track]) tracksByKind)
  | None => Throw (TypeError "tracksByKind[kind].push is not a function")
  end.

Fixpoint group_loop (tracksByKind : Obj (list Track)) (tracks : list Track)
  : result (Obj (list Track)) :=
  match tracks with
  | [] => Ok tracksByKind
  | track :: rest => bind (group_step tracksByKind track) (fun o => group_loop o rest)
  end.

Definition group_tracks (tracks : list Track) : result (Obj (list Track)) :=
  group_loop [] tracks.

(** ** Paella.tsx: the manifest built in [PaellaPlayer]'s effect *)

(** [arr.map((x, index) => f x index)]. *)
Fixpoint map_from {A B : Type} (f : A -> nat -> B) (index : nat) (l : list A) : list B :=
  match l with
  | [] => []
  | x :: l' => f x index :: map_from f (S index) l'
  end.

Definition map_indexed {A B : Type} (f : A -> nat -> B) (l : list A) : list B :=
  map_from f 0%nat l.

Definition with_role (s : Stream) (r : string) : Stream :=
  {| content := content s; sources := sources s; role := Some r |}.

Section PaellaPlayer.

(** The translation function of [useTranslation]. *)
Variable t : string -> string.

(** [new Date(s).getTime()]: epoch milliseconds, NaN for a string that is
    not a date. *)
Variable Date_getTime : string -> number.

Definition fixedDuration (duration : number) (startTime endTime : option string)
  : number :=
  let fixedDuration := duration in
  let fixedDuration :=
    if is_zero fixedDuration && truthy startTime && truthy endTime
    then match startTime, endTime with
         | Some startTime, Some endTime =>
             let diffMs := sub (Date_getTime endTime) (Date_getTime startTime) in
             div diffMs (of_Z 1000)
         | _, _ => fixedDuration
         end
    else fixedDuration in
  if is_zero fixedDuration then of_Z 1 else fixedDuration.

Definition caption_text (count : nat) (lang : option string) (index : nat) : string :=
  (t "video.caption"
   ++ (if truthy lang
       then match lang with
            | Some l => " (" ++ l ++ ")"
            | None => ""
            end
       else "")
   ++ (if (1 <? count)%nat then " [" ++ string_of_nat (index + 1) ++ "]" else ""))%string.

Definition manifest_caption (count : nat) (c : Caption) (index : nat) : ManifestCaption :=
  {| format := "vtt";
     url := caption_uri c;
     lang := caption_lang c;
     text := caption_text count (caption_lang c) index |}.

Definition stream_of_entry (isLive : bool) (entry : string * list Track) : Stream :=
  let (key, tracks) := entry in
  {| content := key;
     sources := tracksToPaellaSources tracks isLive;
     role := None |}.

(** The body of the effect up to the construction of the player: the
    manifest handed to [loadVideoManifest], with the diagnostics written on
    the way, or the exception that ends the effect. *)
Definition PaellaPlayer_manifest
  (tracks : list Track) (title : string) (duration : number) (isLive : bool)
  (captions : list Caption) (startTime endTime : option string)
  (previewImage : option string) : result (Manifest * list Diagnostic) :=
  bind (group_tracks tracks) (fun tracksByKind =>
  let fixedDuration := fixedDuration duration startTime endTime in
  let metadata :=
    {| metadata_title := title;
       metadata_duration := fixedDuration;
       preview := previewImage |} in
  let streams := map (stream_of_entry isLive) (Object_entries tracksByKind) in
  let captions := map_indexed (manifest_caption (List.length captions)) captions in
  if (1 <? List.length streams)%nat && negb (has_property "presenter" tracksByKind)
  then
    match streams with
    | first :: others =>
        Ok ({| metadata := metadata;
               streams := with_role first "mainAudio" :: others;
               manifest_captions := captions |},
            [console_warn "Picking first stream as main audio source. Tracks: " tracks])
    | [] => Throw (TypeError "Cannot set properties of undefined (setting 'role')")
    end
  else
    Ok ({| metadata := metadata;
           streams := streams;
           manifest_captions := captions |}, [])).

End PaellaPlayer.

(** ** index.tsx *)

(** A valid [Date], by its time value in epoch milliseconds. *)
Definition Date : Type := Z.

(** [delayTill(date)], with the clock reading [Date.now()] made explicit. *)
Definition delayTill (date : Date) (now : Z) : Z :=
  let raw := date - now + 500 in
  Z.min raw 2147483647.

(** What [getEventTimeInfo(event)] hands to [Player] (the function lives in
    a module outside these sources; its result is taken as given). *)
Record EventTimeInfo : Type := {
  info_startTime : Date;
  info_endTime : Date;
  hasStarted : option bool;
  hasEnded : option bool;
}.

Inductive LiveEventPlaceholderProps : Type :=
| pending (startTime : Date)
| ended.

Inductive Element : Type :=
| LiveEventPlaceholder (props : LiveEventPlaceholderProps)
| LoadPaellaPlayer (event : PlayerEvent).

(** [v === false] and [v === true] on a tri-state flag. *)
Definition is_false (v : option bool) : bool :=
  match v with
  | Some false => true
  | _ => false
  end.

Definition is_true (v : option bool) : bool :=
  match v with
  | Some true => true
  | _ => false
  end.

(** The element [Player] returns. *)
Definition Player (event : PlayerEvent) (info : EventTimeInfo) : Element :=
  if isLive event && (is_false (hasStarted info) || is_true (hasEnded info))
  then LiveEventPlaceholder
         (if is_false (hasStarted info)
          then pending (info_startTime info)
          else ended)
  else LoadPaellaPlayer event.

(** The delays of the timers [Player]'s effect sets. *)
Definition Player_timers (event : PlayerEvent) (info : EventTimeInfo) (now : Z) : list Z :=
  (if isLive event && is_false (hasStarted info)
   then [delayTill (info_startTime info) now] else [])
  ++
  (if isLive event && is_false (hasEnded info)
   then [delayTill (info_endTime info) now] else []).

(** [getPlayerAspectRatio(tracks)]: the size of the set of flavors decides
    between the default ratio and the resolution of [tracks[0]]; reading a
    property of [tracks[0]] throws when there is no such element. *)
Definition getPlayerAspectRatio (tracks : list Track) : result (list number) :=
  let flavors := nodup string_dec (map flavor tracks) in
  let default_ := [of_Z 16; of_Z 9] in
  if (1 <? List.length flavors)%nat
  then Ok default_
  else match nth_error tracks 0 with
       | Some first =>
           Ok (match resolution first with
               | Some r => r
               | None => default_
               end)
       | None =>
           Throw (TypeError "Cannot read properties of undefined (reading 'resolution')")
       end.

(** [InlinePlayer] computes the aspect ratio, then renders [Player]. *)
Definition InlinePlayer (event : PlayerEvent) (info : EventTimeInfo) : result Element :=
  bind (getPlayerAspectRatio (tracks (syncedData event)))
       (fun aspectRatio => Ok (Player event info)).

(** The props [LoadPaellaPlayer] receives from the spread of the event and
    of its synced data. *)
Definition LoadPaellaPlayer_manifest
  (t : string -> string) (Date_getTime : string -> number) (event : PlayerEvent)
  : result (Manifest * list Diagnostic) :=
  let data := syncedData event in
  PaellaPlayer_manifest t Date_getTime
    (tracks data) (title event) (duration data) (isLive event)
    (captions data) (startTime data) (endTime data) (thumbnail data).

(** ** Paella.tsx: the effect of [PaellaPlayer] and its cleanup *)

Module Props.

(** [PaellaPlayerProps]. *)
Record PaellaPlayerProps : Type := {
  title : string;
  duration : number;
  tracks : list Track;
  captions : list Caption;
  isLive : bool;
  startTime : option string;
  endTime : option string;
  previewImage : option string;
}.

End Props.

(** What the handler of "paella:playerLoaded" calls. *)
Inductive PlayerCall : Type :=
| setPlayerIsLoaded (loaded : bool)
| setCurrentTime (seconds : integral).

(** The handler bound to "paella:playerLoaded"; [time] is the [t] parameter
    of the page address, read when the player was built ([null] without
    one). *)
Definition playerLoaded (time : option string) : list PlayerCall :=
  setPlayerIsLoaded true
  :: (if truthy time
      then match time with
           | Some s => [setCurrentTime (timeStringToSeconds s)]
           | None => []
           end
      else []).

(** A player built by [new Paella(...)]: the manifest its
    [loadVideoManifest] answers and the [t] parameter its handler holds.
    Players are known by the order of their construction. *)
Record PaellaInstance : Type := {
  loadVideoManifest : Manifest;
  search_t : option string;
}.

(** [PaellaState]: a player and the promise of its load, both by the number
    of the player. *)
Record PaellaState : Type := {
  player : nat;
  loadPromise : nat;
}.

(** What the effect reads and writes: the shared slot [paella.current] of
    the player context, the players built so far, the console, and the
    continuations chained on load promises with [then], each a promise and
    the player it unloads. *)
Record World : Type := {
  paella_current : option PaellaState;
  instances : list PaellaInstance;
  console : list Diagnostic;
  on_load : list (nat * nat);
}.

(** The effect of [PaellaPlayer].  [ref_current] tells whether the [div] is
    mounted.  The answer holds the cleanup the effect returns, by the
    snapshot of the slot it closes over ([None]: the effect returned
    nothing). *)
Definition PaellaPlayer_effect
  (t : string -> string) (Date_getTime : string -> number)
  (ref_current : bool) (time : option string) (props : Props.PaellaPlayerProps)
  (w : World) : result (World * option (option PaellaState)) :=
  if negb ref_current then Ok (w, None)
  else
    bind
      (match paella_current w with
       | None =>
           bind (PaellaPlayer_manifest t Date_getTime
                   (Props.tracks props) (Props.title props) (Props.duration props)
                   (Props.isLive props) (Props.captions props)
                   (Props.startTime props) (Props.endTime props)
                   (Props.previewImage props))
                (fun built =>
                   let (manifest, warnings) := built in
                   let player := List.length (instances w) in
                   let loadPromise := player in
                   Ok {| paella_current :=
                           Some {| player := player; loadPromise := loadPromise |};
                         instances :=
                           instances w
                           ++ [{| loadVideoManifest := manifest; search_t := time |}];
                         console := console w ++ warnings;
                         on_load := on_load w |})
       | Some _ => Ok w
       end)
      (fun w => let paellaSnapshot := paella_current w in
                Ok (w, Some paellaSnapshot)).

(** The cleanup: empties the slot, then chains the unload of the snapshot's
    player on the snapshot's load promise.  (Reading [loadPromise] of an
    undefined snapshot would throw.) *)
Definition PaellaPlayer_cleanup (paellaSnapshot : option PaellaState) (w : World)
  : result World :=
  match paellaSnapshot with
  | Some snapshot =>
      Ok {| paella_current := None;
            instances := instances w;
            console := console w;
            on_load := on_load w ++ [(loadPromise snapshot, player snapshot)] |}
  | None =>
      Throw (TypeError "Cannot read properties of undefined (reading 'loadPromise')")
  end.

(** ** index.tsx: the effect of [Player] and its cleanup *)

(** The pending timeouts of the page: each a handle and a delay.  Handles
    are handed out in increasing order, so a new one is never in use. *)
Record Timers : Type := {
  next_handle : nat;
  timeouts : list (nat * Z);
}.

Definition setTimeout (delay : Z) (timers : Timers) : nat * Timers :=
  (next_handle timers,
   {| next_handle := S (next_handle timers);
      timeouts := timeouts timers ++ [(next_handle timers, delay)] |}).

Definition clearTimeout (handle : nat) (timers : Timers) : Timers :=
  {| next_handle := next_handle timers;
     timeouts := filter (fun entry => negb (fst entry =? handle)%nat) (timeouts timers) |}.

(** The effect of [Player]: the handles it collects and the timers after it.
    Each call of [delayTill] reads the clock anew. *)
Definition Player_effect (event : PlayerEvent) (info : EventTimeInfo)
  (now_start now_end : Z) (timers : Timers) : list nat * Timers :=
  let handles := [] in
  let (handles, timers) :=
    if isLive event && is_false (hasStarted info)
    then let (handle, timers) :=
           setTimeout (delayTill (info_startTime info) now_start) timers in
         (handles ++ [handle], timers)
    else (handles, timers) in
  let (handles, timers) :=
    if isLive event && is_false (hasEnded info)
    then let (handle, timers) :=
           setTimeout (delayTill (info_endTime info) now_end) timers in
         (handles ++ [handle], timers)
    else (handles, timers) in
  (handles, timers).

(** The cleanup: [handles.forEach(clearTimeout)]. *)
Definition Player_cleanup (handles : list nat) (timers : Timers) : Timers :=
  fold_left (fun timers handle => clearTimeout handle timers) handles timers.

(** * Vocabulary of the properties

    The definitions below are not part of the program: they name what the
    properties speak about (the offset format, kinds and kind groups, sample
    inputs). *)

(** ** The offset format *)

(** A count [<N>] of the format [(<N>h)?(<N>m)?(<N>s)?] is a non-empty run
    of decimal digits; an absent group is [None]. *)
Definition is_count (n : option string) : bool :=
  match n with
  | Some d => negb (String.eqb d EmptyString) && all_digits d
  | None => true
  end.

(** The text of one group: the count followed by its unit letter. *)
Definition group_text (n : option string) (u : ascii) : string :=
  match n with
  | Some d => (d ++ String u EmptyString)%string
  | None => EmptyString
  end.

Definition offset_text (h m s : option string) : string :=
  (group_text h "h" ++ group_text m "m" ++ group_text s "s")%string.

(** A text has the offset form when it is the three optional groups, in
    order, and nothing else. *)
Definition offset_form (str : string) : Prop :=
  exists h m s,
    is_count h = true /\ is_count m = true /\ is_count s = true
    /\ str = offset_text h m s.

(** The value of a decimal numeral, digit by position. *)
Fixpoint numeral_value (d : string) : Z :=
  match d with
  | EmptyString => 0
  | String c d' => digit_value c * 10 ^ Z.of_nat (String.length d') + numeral_value d'
  end.

Definition count_value (n : option string) : Z :=
  match n with
  | Some d => numeral_value d
  | None => 0
  end.

Definition is_unit (c : ascii) : bool :=
  Ascii.eqb c "h" || Ascii.eqb c "m" || Ascii.eqb c "s".

(** The text starts with a count followed by one of the three unit letters. *)
Definition begins_with_group (str : string) : bool :=
  match digits_prefix str with
  | (String _ _, String c _) => is_unit c
  | _ => false
  end.

Fixpoint all_chars (p : ascii -> bool) (s : string) : bool :=
  match s with
  | EmptyString => true
  | String c s' => p c && all_chars p s'
  end.

(** What [timeStringToSeconds] makes of one capture: the number of the
    count, multiplied by the factors of its unit in turn. *)
Definition capture_seconds (n : option string) (factors : list Z) : integral :=
  match n with
  | Some (String c d) => fold_left times factors (parseInt_number (String c d))
  | _ => Finite 0
  end.

(** The text starts with a group of the unit [u]: a count, then [u]. *)
Definition starts_with (u : ascii) (str : string) : Prop :=
  exists d rest, is_count (Some d) = true /\ str = (d ++ String u rest)%string.

(** Reading a text from the left as [(<N>h)?(<N>m)?(<N>s)?] and a remainder:
    the text is the three groups, some of them absent, followed by [rest],
    and a group is absent only where the text at that point does not start
    with a group of its unit. *)
Definition reading (str : string) (h m s : option string) (rest : string) : Prop :=
  is_count h = true /\ is_count m = true /\ is_count s = true
  /\ str = (offset_text h m s ++ rest)%string
  /\ (h = None -> ~ starts_with "h" (group_text m "m" ++ group_text s "s" ++ rest))
  /\ (m = None -> ~ starts_with "m" (group_text s "s" ++ rest))
  /\ (s = None -> ~ starts_with "s" rest).

(** The total of three counts, in seconds. *)
Definition total_seconds (h m s : option string) : Z :=
  count_value h * 3600 + count_value m * 60 + count_value s.

(** [Number.MAX_SAFE_INTEGER], 2^53 - 1: up to it every integer is a double
    of its own. *)
Definition MAX_SAFE_INTEGER : Z := 9007199254740991.

(** The total of three counts in double arithmetic, as the code brackets
    it: (h * 60) * 60 + m * 60, then + s, every step rounded. *)
Definition double_seconds (h m s : option string) : integral :=
  plus (plus (times (times (to_double (count_value h)) 60) 60)
             (times (to_double (count_value m)) 60))
       (to_double (count_value s)).

(** The number is not below 0. *)
Definition not_negative (x : integral) : Prop :=
  match x with
  | Finite v => 0 <= v
  | Infinity => True
  end.

(** ** Kinds and kind groups *)

(** The character occurs in the text. *)
Fixpoint occurs (c : ascii) (s : string) : bool :=
  match s with
  | EmptyString => false
  | String x s' => Ascii.eqb x c || occurs c s'
  end.

Definition has_kind (k : string) (t : Track) : bool := String.eqb (kind_of t) k.

(** The distinct elements of a list, in order of first appearance. *)
Fixpoint distinct (l : list string) : list string :=
  match l with
  | [] => []
  | x :: l' => x :: filter (fun y => negb (String.eqb y x)) (distinct l')
  end.

Definition kinds (tracks : list Track) : list string :=
  distinct (map kind_of tracks).

(** The kind groups: every kind with the tracks of that kind, in input
    order. *)
Definition groups_of (tracks : list Track) : Obj (list Track) :=
  map (fun k => (k, filter (has_kind k) tracks)) (kinds tracks).

(** The number an array-index key denotes (0 for any other key). *)
Definition index_value (key : string) : Z :=
  match array_index key with
  | Some i => i
  | None => 0
  end.

(** A track carries the master flag. *)
Definition is_master (t : Track) : bool := is_true (isMaster t).

(** ** Sample inputs *)

(** A clock that knows two ISO timestamps ten minutes apart. *)
Definition sample_getTime (s : string) : number :=
  if String.eqb s "2024-01-01T00:00:00Z" then of_Z 1704067200000
  else if String.eqb s "2024-01-01T00:10:00Z" then of_Z 1704067800000
  else NaN.

Definition sample_track (u f : string) : Track :=
  {| uri := u; flavor := f; mimetype := None; resolution := None; isMaster := None |}.

Definition sample_t (key : string) : string :=
  if String.eqb key "video.caption" then "Caption"%string else key.

Definition sample_event (live : bool) (ts : list Track) : PlayerEvent :=
  {| title := "Lecture";
     created := "2024-01-01T00:00:00Z";
     isLive := live;
     syncedData :=
       {| updated := "2024-01-01T00:00:00Z";
          startTime := None;
          endTime := None;
          duration := of_Z 60;
          tracks := ts;
          captions := [];
          thumbnail := None |} |}.

Definition sample_info (started finished : option bool) : EventTimeInfo :=
  {| info_startTime := 1704067200000;
     info_endTime := 1704067800000;
     hasStarted := started;
     hasEnded := finished |}.

Definition segmented_track (u : string) (master : option bool) : Track :=
  {| uri := u; flavor := "presenter/delivery"; mimetype := None;
     resolution := None; isMaster := master |}.

(** ** Manifests and life cycles *)

(** All source descriptors of a manifest, stream by stream and key by key. *)
Definition all_sources (m : Manifest) : list Source :=
  flat_map (fun s => flat_map snd (sources s)) (streams m).

(** The players a fulfilled load promise unloads: those of the
    continuations chained on it. *)
Definition unloaded_on (promise : nat) (w : World) : list nat :=
  map snd (filter (fun entry => (fst entry =? promise)%nat) (on_load w)).

(** One mount of [PaellaPlayer]: whether the [div] is there, the [t]
    parameter of the page, the props. *)
Record Mount : Type := {
  mount_ref : bool;
  mount_t : option string;
  mount_props : Props.PaellaPlayerProps;
}.

(** A component mounted and unmounted in turn: every effect is followed by
    the cleanup it returned before the next effect runs.  An effect that
    throws leaves no cleanup behind. *)
Fixpoint PaellaPlayer_cycles
  (t : string -> string) (Date_getTime : string -> number)
  (mounts : list Mount) (w : World) : result World :=
  match mounts with
  | [] => Ok w
  | m :: rest =>
      match PaellaPlayer_effect t Date_getTime (mount_ref m) (mount_t m)
                                (mount_props m) w with
      | Ok (w1, Some snapshot) =>
          bind (PaellaPlayer_cleanup snapshot w1)
               (PaellaPlayer_cycles t Date_getTime rest)
      | Ok (w1, None) => PaellaPlayer_cycles t Date_getTime rest w1
      | Throw _ => PaellaPlayer_cycles t Date_getTime rest w
      end
  end.

(** One render of [Player]: the event, its time info, the two clock
    readings. *)
Record Render : Type := {
  render_event : PlayerEvent;
  render_info : EventTimeInfo;
  render_now_start : Z;
  render_now_end : Z;
}.

(** Renders in turn: the effect has no dependency list, so every render runs
    the cleanup of the render before, then the effect. *)
Fixpoint Player_renders (renders : list Render) (handles : list nat) (timers : Timers)
  : list nat * Timers :=
  match renders with
  | [] => (handles, timers)
  | r :: rest =>
      let (handles', timers') :=
        Player_effect (render_event r) (render_info r)
                      (render_now_start r) (render_now_end r)
                      (Player_cleanup handles timers) in
      Player_renders rest handles' timers'
  end.

(** No pending timeout uses a handle that is still to be handed out. *)
Definition timers_ok (timers : Timers) : Prop :=
  Forall (fun entry => (fst entry < next_handle timers)%nat) (timeouts timers).

(** The delays the effect of [Player] asks for, in the order of its calls
    of [setTimeout]. *)
Definition Player_delays (event : PlayerEvent) (info : EventTimeInfo)
  (now_start now_end : Z) : list Z :=
  (if isLive event && is_false (hasStarted info)
   then [delayTill (info_startTime info) now_start] else [])
  ++ (if isLive event && is_false (hasEnded info)
      then [delayTill (info_endTime info) now_end] else []).

(** The engine instances a list of mounts asks for, one for every mount
    whose [div] is there and whose manifest can be built. *)
Definition built_instances
  (t : string -> string) (Date_getTime : string -> number)
  (mounts : list Mount) : list PaellaInstance :=
  flat_map
    (fun m =>
       if mount_ref m
       then match PaellaPlayer_manifest t Date_getTime
                    (Props.tracks (mount_props m)) (Props.title (mount_props m))
                    (Props.duration (mount_props m)) (Props.isLive (mount_props m))
                    (Props.captions (mount_props m)) (Props.startTime (mount_props m))
                    (Props.endTime (mount_props m))
                    (Props.previewImage (mount_props m)) with
            | Ok (manifest, _) =>
                [{| loadVideoManifest := manifest; search_t := mount_t m |}]
            | Throw _ => []
            end
       else [])
    mounts.

(** The text after the last occurrence of a character, if it occurs. *)
Fixpoint after_last (c : ascii) (s : string) : option string :=
  match s with
  | EmptyString => None
  | String x s' =>
      match after_last c s' with
      | Some r => Some r
      | None => if Ascii.eqb x c then Some s' else None
      end
  end.

Definition sample_props (ts : list Track) : Props.PaellaPlayerProps :=
  {| Props.title := "Lecture";
     Props.duration := of_Z 60;
     Props.tracks := ts;
     Props.captions := [];
     Props.isLive := false;
     Props.startTime := None;
     Props.endTime := None;
     Props.previewImage := None |}.

Definition empty_world : World :=
  {| paella_current := None; instances := []; console := []; on_load := [] |}.

(** * Properties *)

(** ** Evaluation on sample inputs *)

Example timeStringToSeconds_1h30m : timeStringToSeconds "1h30m" = Finite 5400.
Proof. reflexivity. Qed.

Example timeStringToSeconds_90s : timeStringToSeconds "90s" = Finite 90.
Proof. reflexivity. Qed.

Example timeStringToSeconds_empty : timeStringToSeconds "" = Finite 0.
Proof. reflexivity. Qed.

Example timeStringToSeconds_plain_digits : timeStringToSeconds "10" = Finite 0.
Proof. reflexivity. Qed.

Example timeStringToSeconds_out_of_order : timeStringToSeconds "5m1h" = Finite 300.
Proof. reflexivity. Qed.

Example timeStringToSeconds_rounded :
  timeStringToSeconds "99999999999999999999s" = Finite 100000000000000000000.
Proof. vm_compute. reflexivity. Qed.

Example timeStringToSeconds_tie :
  timeStringToSeconds "9007199254740993s" = Finite 9007199254740992.
Proof. vm_compute. reflexivity. Qed.

Example getPlayerAspectRatio_two_flavors :
  getPlayerAspectRatio [sample_track "a.mp4" "presenter/delivery";
                        sample_track "b.mp4" "presentation/delivery"]
  = Ok [of_Z 16; of_Z 9].
Proof. reflexivity. Qed.

Example getPlayerAspectRatio_one_flavor :
  getPlayerAspectRatio
    [{| uri := "a.mp4"; flavor := "presenter/delivery"; mimetype := None;
        resolution := Some [of_Z 1920; of_Z 1080]; isMaster := None |}]
  = Ok [of_Z 1920; of_Z 1080].
Proof. reflexivity. Qed.

Example getPlayerAspectRatio_no_resolution :
  getPlayerAspectRatio [sample_track "a.mp4" "presenter/delivery"]
  = Ok [of_Z 16; of_Z 9].
Proof. reflexivity. Qed.

Example delayTill_soon : delayTill 10000 4000 = 6500.
Proof. reflexivity. Qed.

Example delayTill_far : delayTill 4000000000000 0 = 2147483647.
Proof. reflexivity. Qed.

(** ** The timer delay *)

Lemma delayTill_raw (date : Date) (now : Z) :
  delayTill date now = Z.min (date - now + 500) 2147483647.
Proof. reflexivity. Qed.

Lemma delayTill_upper (date : Date) (now : Z) :
  delayTill date now <= 2147483647.
Proof. unfold delayTill. lia. Qed.

(** C1, as the code has it: [delayTill] is the raw delay
    [date - now + 500] clamped from above only.  It never exceeds
    2147483647, equals 2147483647 whenever the raw delay exceeds that bound,
    agrees with [max 0 raw] clamped from above whenever the raw delay is not
    negative, and is negative exactly when the raw delay is. *)
Theorem delayTill_clamped_above (date : Date) (now : Z) :
  delayTill date now = Z.min (date - now + 500) 2147483647
  /\ delayTill date now <= 2147483647
  /\ (2147483647 < date - now + 500 -> delayTill date now = 2147483647)
  /\ (0 <= date - now + 500 ->
      delayTill date now = Z.min (Z.max 0 (date - now + 500)) 2147483647)
  /\ (delayTill date now < 0 <-> date - now + 500 < 0).
Proof.
  unfold delayTill. cbv zeta.
  repeat split; intros; lia.
Qed.

Lemma delayTill_clamped_above_witness :
  delayTill 4000000000000 0 = 2147483647 /\ delayTill 10000 4000 = 6500.
Proof.
  split.
  - destruct (delayTill_clamped_above 4000000000000 0) as [_ [_ [H _]]].
    apply H. reflexivity.
  - destruct (delayTill_clamped_above 10000 4000) as [_ [_ [_ [H _]]]].
    rewrite H by (vm_compute; discriminate). reflexivity.
Defined.

(** C1, as the claim words it, fails: a target more than 500 ms in the past
    gives a negative delay, where [max 0 _] would give 0. *)
Lemma delayTill_negative :
  delayTill 0 1000 = -500
  /\ delayTill 0 1000 < 0
  /\ delayTill 0 1000 <> Z.min (Z.max 0 (0 - 1000 + 500)) 2147483647.
Proof. repeat split; vm_compute; discriminate. Qed.

(** No timer of [Player] is set with a delay the timer primitive cannot
    hold. *)
Lemma Player_timers_bounded (event : PlayerEvent) (info : EventTimeInfo) (now : Z) :
  Forall (fun delay => delay <= 2147483647) (Player_timers event info now).
Proof.
  unfold Player_timers. apply Forall_app. split;
    (destruct (_ && _); repeat constructor; apply delayTill_upper).
Qed.

(** An event that is not live sets no timer. *)
Lemma Player_timers_not_live (event : PlayerEvent) (info : EventTimeInfo) (now : Z) :
  isLive event = false -> Player_timers event info now = [].
Proof. intros H. unfold Player_timers. rewrite H. reflexivity. Qed.

(** ** The live-state branch *)

(** C8: [Player] shows the pending placeholder exactly when the event is
    live and [hasStarted] is [false]; the ended placeholder exactly when the
    event is live, [hasEnded] is [true] and [hasStarted] is not [false]; and
    the player in every other case, among them a recorded event and a live
    event that has started and not ended. *)
Theorem Player_branch (event : PlayerEvent) (info : EventTimeInfo) :
  ((exists start, Player event info = LiveEventPlaceholder (pending start))
   <-> isLive event = true /\ hasStarted info = Some false)
  /\ (Player event info = LiveEventPlaceholder ended
      <-> isLive event = true /\ hasEnded info = Some true
          /\ hasStarted info <> Some false)
  /\ (Player event info = LoadPaellaPlayer event
      <-> ~ (isLive event = true /\ hasStarted info = Some false)
          /\ ~ (isLive event = true /\ hasEnded info = Some true
                /\ hasStarted info <> Some false))
  /\ (isLive event = false -> Player event info = LoadPaellaPlayer event)
  /\ (isLive event = true -> hasStarted info = Some true ->
      hasEnded info = Some false -> Player event info = LoadPaellaPlayer event)
  /\ (forall start, Player event info = LiveEventPlaceholder (pending start) ->
      start = info_startTime info).
Proof.
  unfold Player.
  destruct (isLive event), (hasStarted info) as [[|]|], (hasEnded info) as [[|]|];
    simpl;
    (split;
     [ split;
       [ intros [start H]; try discriminate; auto
       | intros [H1 H2]; try discriminate; eexists; reflexivity ]
     | intuition (try discriminate; try congruence) ]).
Qed.

Lemma Player_branch_witness :
  (exists start,
     Player (sample_event true []) (sample_info (Some false) (Some false))
     = LiveEventPlaceholder (pending start))
  /\ Player (sample_event true []) (sample_info (Some true) (Some true))
     = LiveEventPlaceholder ended
  /\ Player (sample_event true []) (sample_info (Some true) (Some false))
     = LoadPaellaPlayer (sample_event true [])
  /\ Player (sample_event false []) (sample_info None None)
     = LoadPaellaPlayer (sample_event false []).
Proof.
  split; [|split; [|split]].
  - apply (proj1 (Player_branch (sample_event true [])
                    (sample_info (Some false) (Some false)))).
    split; reflexivity.
  - apply (proj1 (proj2 (Player_branch (sample_event true [])
                           (sample_info (Some true) (Some true))))).
    repeat split; discriminate.
  - destruct (Player_branch (sample_event true [])
                (sample_info (Some true) (Some false))) as [_ [_ [_ [_ [H _]]]]].
    apply H; reflexivity.
  - destruct (Player_branch (sample_event false []) (sample_info None None))
      as [_ [_ [_ [H _]]]].
    apply H. reflexivity.
Defined.

(** ** Strings *)

Lemma length_append (a b : string) :
  String.length (a ++ b) = (String.length a + String.length b)%nat.
Proof. induction a as [|c a IH]; simpl; [reflexivity | now rewrite IH]. Qed.

Lemma substring_whole (s : string) : substring 0 (String.length s) s = s.
Proof. induction s as [|c s IH]; simpl; [reflexivity | now rewrite IH]. Qed.

Lemma substring_after_prefix (p s : string) :
  substring (String.length p) (String.length s) (p ++ s) = s.
Proof. induction p as [|c p IH]; simpl; [apply substring_whole | exact IH]. Qed.

Lemma cut_at (n : nat) : forall s : string,
  (n <= String.length s)%nat ->
  exists p r, s = (p ++ r)%string /\ String.length p = n.
Proof.
  induction n as [|n IH]; intros s Hn.
  - exists EmptyString, s. split; reflexivity.
  - destruct s as [|c s]; simpl in Hn; [lia|].
    destruct (IH s) as [p [r [Hs Hp]]]; [lia|].
    exists (String c p), r. simpl. split; congruence.
Qed.

Lemma endsWith_iff (s suffix : string) :
  endsWith s suffix = true <-> exists p, s = (p ++ suffix)%string.
Proof.
  unfold endsWith. rewrite andb_true_iff, Nat.leb_le, String.eqb_eq. split.
  - intros [Hlen Hsub].
    destruct (cut_at (String.length s - String.length suffix) s) as [p [r [Hs Hp]]];
      [lia|].
    exists p. rewrite Hs in Hsub at 2. rewrite <- Hp in Hsub.
    assert (Hr : String.length suffix = String.length r).
    { rewrite Hs, length_append in Hp. rewrite Hs, length_append in Hlen. lia. }
    rewrite Hr, substring_after_prefix in Hsub. congruence.
  - intros [p Hs]. subst s. rewrite length_append. split; [lia|].
    replace (String.length p + String.length suffix - String.length suffix)%nat
      with (String.length p) by lia.
    apply substring_after_prefix.
Qed.

(** ** Track classification and the order of segmented tracks *)

Lemma isHlsTrack_iff (t : Track) :
  isHlsTrack t = true
  <-> mimetype t = Some "application/x-mpegURL"%string
      \/ exists p, uri t = (p ++ ".m3u8")%string.
Proof.
  unfold isHlsTrack. rewrite orb_true_iff, endsWith_iff.
  destruct (mimetype t) as [m|].
  - rewrite String.eqb_eq. split; (intros [H|H]; [left; congruence | now right]).
  - split; (intros [H|H]; [discriminate | now right]).
Qed.

Lemma filter_none {A : Type} (p : A -> bool) (l : list A) :
  Forall (fun x => p x = false) l -> filter p l = [].
Proof. induction 1 as [|x l Hx _ IH]; simpl; [reflexivity | now rewrite Hx]. Qed.

Lemma filter_all {A : Type} (p : A -> bool) (l : list A) :
  Forall (fun x => p x = true) l -> filter p l = l.
Proof. induction 1 as [|x l Hx _ IH]; simpl; [reflexivity | now rewrite Hx, IH]. Qed.

Lemma sort_insert_first {A : Type} (cmp : A -> A -> Z) (x : A) (l : list A) :
  (forall y, In y l -> cmp x y <= 0) -> sort_insert cmp x l = x :: l.
Proof.
  destruct l as [|y l]; simpl; intros H; [reflexivity|].
  destruct (Z.leb_spec (cmp x y) 0) as [_|Hgt]; [reflexivity|].
  specialize (H y (or_introl eq_refl)). lia.
Qed.

Lemma sort_insert_after {A : Type} (cmp : A -> A -> Z) (x : A) (before l : list A) :
  (forall y, In y before -> 0 < cmp x y) ->
  sort_insert cmp x (before ++ l) = before ++ sort_insert cmp x l.
Proof.
  induction before as [|y before IH]; simpl; intros H; [reflexivity|].
  destruct (Z.leb_spec (cmp x y) 0) as [Hle|_].
  - specialize (H y (or_introl eq_refl)). lia.
  - f_equal. apply IH. intros z Hz. apply H. now right.
Qed.

Lemma Number_of_flag_master (t : Track) :
  Number_of_flag (isMaster t) = if is_master t then 1 else 0.
Proof. unfold is_master. destruct (isMaster t) as [[|]|]; reflexivity. Qed.

(** Sorting by [master_first] moves the master playlists to the front and
    keeps the input order inside both groups. *)
Lemma sort_master_first (l : list Track) :
  JS.sort master_first l
  = filter is_master l ++ filter (fun t => negb (is_master t)) l.
Proof.
  induction l as [|x l IH]; [reflexivity|].
  unfold JS.sort in *. simpl. rewrite IH. clear IH.
  destruct (is_master x) eqn:Hx; simpl.
  - apply sort_insert_first. intros y _. unfold master_first.
    rewrite !Number_of_flag_master, Hx. destruct (is_master y); lia.
  - rewrite sort_insert_after.
    + f_equal. apply sort_insert_first. intros y Hy.
      apply filter_In in Hy. destruct Hy as [_ Hy]. unfold master_first.
      rewrite !Number_of_flag_master, Hx.
      destruct (is_master y); [discriminate | lia].
    + intros y Hy. apply filter_In in Hy. destruct Hy as [_ Hy].
      unfold master_first. rewrite !Number_of_flag_master, Hx, Hy. lia.
Qed.

(** The order is the only one a stable sort can produce: a list with the
    master playlists in front that keeps the input order inside both groups
    is the sorted list. *)
Lemma sort_master_first_unique (l sorted : list Track) :
  (exists masters others,
     sorted = masters ++ others
     /\ Forall (fun t => is_master t = true) masters
     /\ Forall (fun t => is_master t = false) others) ->
  filter is_master sorted = filter is_master l ->
  filter (fun t => negb (is_master t)) sorted = filter (fun t => negb (is_master t)) l ->
  sorted = JS.sort master_first l.
Proof.
  intros [masters [others [-> [Hm Ho]]]] Hmasters Hothers.
  rewrite sort_master_first, <- Hmasters, <- Hothers, !filter_app.
  assert (Hneg : Forall (fun t => negb (is_master t) = false) masters).
  { apply Forall_impl with (2 := Hm). intros t Ht. now rewrite Ht. }
  assert (Hpos : Forall (fun t => negb (is_master t) = true) others).
  { apply Forall_impl with (2 := Ho). intros t Ht. now rewrite Ht. }
  rewrite (filter_all _ _ Hm), (filter_none _ _ Ho).
  rewrite (filter_none _ _ Hneg), (filter_all _ _ Hpos).
  now rewrite app_nil_r.
Qed.

(** C5: a track is a segmented-manifest track exactly when its MIME type is
    "application/x-mpegURL" or its URI ends with ".m3u8", and every other
    track is progressive; the sorted segmented list is the master playlists
    of the input, in input order, followed by the remaining segmented
    tracks, in input order. *)
Theorem segmented_tracks_master_first (tracks : list Track) :
  (forall t, isHlsTrack t = true
             <-> mimetype t = Some "application/x-mpegURL"%string
                 \/ exists p, uri t = (p ++ ".m3u8")%string)
  /\ (forall t, In t (mp4Tracks tracks) <-> In t tracks /\ isHlsTrack t = false)
  /\ (forall t, In t (hlsTracks tracks) <-> In t tracks /\ isHlsTrack t = true)
  /\ hlsTracks tracks
     = filter (fun t => is_true (isMaster t)) (filter isHlsTrack tracks)
       ++ filter (fun t => negb (is_true (isMaster t))) (filter isHlsTrack tracks).
Proof.
  assert (Hsort : hlsTracks tracks
     = filter (fun t => is_true (isMaster t)) (filter isHlsTrack tracks)
       ++ filter (fun t => negb (is_true (isMaster t))) (filter isHlsTrack tracks)).
  { unfold hlsTracks. apply sort_master_first. }
  split; [exact isHlsTrack_iff|]. split; [|split; [|exact Hsort]].
  - intros t. unfold mp4Tracks. rewrite filter_In, negb_true_iff. reflexivity.
  - intros t. rewrite Hsort, in_app_iff, !filter_In.
    destruct (is_true (isMaster t)); simpl; intuition congruence.
Qed.

Lemma segmented_tracks_master_first_witness :
  hlsTracks [segmented_track "low.m3u8" (Some false);
             segmented_track "plain.mp4" (Some true);
             segmented_track "mid.m3u8" None;
             segmented_track "master.m3u8" (Some true)]
  = [segmented_track "master.m3u8" (Some true);
     segmented_track "low.m3u8" (Some false);
     segmented_track "mid.m3u8" None].
Proof.
  rewrite (proj2 (proj2 (proj2 (segmented_tracks_master_first
             [segmented_track "low.m3u8" (Some false);
              segmented_track "plain.mp4" (Some true);
              segmented_track "mid.m3u8" None;
              segmented_track "master.m3u8" (Some true)])))).
  reflexivity.
Defined.

(** ** Source descriptors *)

Lemma trackToSource_mimetype (t : Track) :
  source_mimetype (trackToSource t) = "video/mp4"%string.
Proof. reflexivity. Qed.

Lemma tracksToPaellaSources_mimetype (tracks : list Track) (live : bool) :
  Forall (fun entry => Forall (fun s => source_mimetype s = "video/mp4"%string)
                              (snd entry))
         (tracksToPaellaSources tracks live).
Proof.
  unfold tracksToPaellaSources. apply Forall_app. split.
  - destruct (0 <? _)%nat; constructor; [|constructor].
    simpl. apply Forall_map, Forall_forall. intros. reflexivity.
  - destruct (0 <? _)%nat; constructor; [|constructor].
    simpl. apply Forall_map, Forall_forall. intros. reflexivity.
Qed.

(** ** The offset parser *)

Lemma append_assoc (a b c : string) : ((a ++ b) ++ c = a ++ (b ++ c))%string.
Proof. induction a as [|x a IH]; simpl; [reflexivity | now rewrite IH]. Qed.

Lemma append_empty_r (a : string) : (a ++ EmptyString)%string = a.
Proof. induction a as [|x a IH]; simpl; [reflexivity | now rewrite IH]. Qed.

Lemma all_chars_append (p : ascii -> bool) (a b : string) :
  all_chars p (a ++ b) = all_chars p a && all_chars p b.
Proof.
  induction a as [|x a IH]; simpl; [reflexivity|].
  rewrite IH. apply andb_assoc.
Qed.

Lemma all_digits_all_chars (d : string) : all_digits d = all_chars is_digit d.
Proof. induction d as [|c d IH]; simpl; [reflexivity | now rewrite IH]. Qed.

Lemma digits_prefix_run (d : string) (c : ascii) (rest : string) :
  all_digits d = true -> is_digit c = false ->
  digits_prefix (d ++ String c rest) = (d, String c rest).
Proof.
  intros Hd Hc. induction d as [|x d IH]; simpl.
  - now rewrite Hc.
  - simpl in Hd. apply andb_true_iff in Hd. destruct Hd as [Hx Hd].
    rewrite Hx, (IH Hd). reflexivity.
Qed.

Lemma is_count_some (d : string) :
  is_count (Some d) = true ->
  all_digits d = true /\ exists c d', d = String c d'.
Proof.
  simpl. intros H. apply andb_true_iff in H. destruct H as [Hne Hd].
  split; [exact Hd|]. destruct d as [|c d']; [discriminate | eauto].
Qed.

Lemma optional_group_present (u : ascii) (d rest : string) :
  is_count (Some d) = true -> is_digit u = false ->
  optional_group u (d ++ String u rest) = (Some d, rest).
Proof.
  intros Hd Hu. destruct (is_count_some d Hd) as [Hall [c [d' ->]]].
  unfold optional_group. rewrite (digits_prefix_run _ _ _ Hall Hu).
  now rewrite Ascii.eqb_refl.
Qed.

Lemma optional_group_other_unit (u v : ascii) (d rest : string) :
  is_count (Some d) = true -> is_digit v = false -> Ascii.eqb v u = false ->
  optional_group u (d ++ String v rest) = (None, (d ++ String v rest)%string).
Proof.
  intros Hd Hv Hvu. destruct (is_count_some d Hd) as [Hall [c [d' ->]]].
  unfold optional_group. rewrite (digits_prefix_run _ _ _ Hall Hv).
  now rewrite Hvu.
Qed.

Lemma optional_group_absent (u : ascii) (rest : string) :
  begins_with_group rest = false -> is_unit u = true ->
  optional_group u rest = (None, rest).
Proof.
  unfold begins_with_group, optional_group. intros Hrest Hu.
  destruct (digits_prefix rest) as [[|x d] [|c r]]; try reflexivity.
  destruct (Ascii.eqb_spec c u) as [->|_]; [congruence | reflexivity].
Qed.

Lemma parseInt_from_numeral (d : string) : forall acc : Z,
  all_digits d = true ->
  parseInt_from acc d = acc * 10 ^ Z.of_nat (String.length d) + numeral_value d.
Proof.
  induction d as [|c d IH]; intros acc Hd; simpl String.length.
  - simpl. lia.
  - simpl in Hd. apply andb_true_iff in Hd. destruct Hd as [Hc Hd].
    cbn [parseInt_from]. rewrite Hc, (IH _ Hd). cbn [numeral_value].
    rewrite Nat2Z.inj_succ, Z.pow_succ_r by lia. ring.
Qed.

Lemma parseInt_numeral (d : string) :
  all_digits d = true -> parseInt d = numeral_value d.
Proof.
  intros Hd. unfold parseInt. rewrite (parseInt_from_numeral d 0 Hd). lia.
Qed.

(** *** Double arithmetic where it is exact *)

Lemma digit_value_nonneg (c : ascii) : is_digit c = true -> 0 <= digit_value c.
Proof.
  unfold is_digit, digit_value. intros H. apply andb_true_iff in H.
  destruct H as [H _]. apply Nat.leb_le in H. lia.
Qed.

Lemma numeral_value_nonneg (d : string) : all_digits d = true -> 0 <= numeral_value d.
Proof.
  induction d as [|c d IH]; simpl; intros H; [lia|].
  apply andb_true_iff in H. destruct H as [Hc Hd].
  pose proof (digit_value_nonneg c Hc). pose proof (IH Hd).
  assert (0 <= 10 ^ Z.of_nat (String.length d)) by (apply Z.pow_nonneg; lia).
  nia.
Qed.

Lemma count_value_nonneg (n : option string) : is_count n = true -> 0 <= count_value n.
Proof.
  destruct n as [d|]; simpl; intros H; [|lia].
  apply andb_true_iff in H. destruct H as [_ H]. now apply numeral_value_nonneg.
Qed.

Ltac safe := unfold MAX_SAFE_INTEGER in *; lia.

(** Up to 2^53 - 1 an integer is its own double. *)
Lemma to_double_exact (n : Z) :
  0 <= n <= MAX_SAFE_INTEGER -> to_double n = Finite n.
Proof.
  unfold MAX_SAFE_INTEGER, to_double. intros [H0 Hn]. cbv zeta.
  destruct (Z.leb_spec (Z.log2 n - 52) 0) as [_|He]; [reflexivity|].
  exfalso. assert (Hpos : 0 < n).
  { destruct (Z.eq_dec n 0) as [->|]; [simpl in He; lia | lia]. }
  pose proof (Z.log2_spec n Hpos) as [Hlow _].
  assert (Hpow : 2 ^ 53 <= 2 ^ Z.log2 n) by (apply Z.pow_le_mono_r; lia).
  change (2 ^ 53) with 9007199254740992 in Hpow. lia.
Qed.

Lemma to_double_not_negative (n : Z) : 0 <= n -> not_negative (to_double n).
Proof.
  intros Hn. unfold to_double. cbv zeta.
  destruct (Z.leb_spec (Z.log2 n - 52) 0) as [_|He]; [exact Hn|].
  match goal with |- context [Z.shiftl ?q ?e <? 2 ^ 1024] => set (v := Z.shiftl q e) end.
  assert (Hv : 0 <= v).
  { unfold v. apply Z.shiftl_nonneg.
    assert (Hq : 0 <= Z.shiftr n (Z.log2 n - 52)) by now apply Z.shiftr_nonneg.
    repeat match goal with |- context [if ?b then _ else _] => destruct b end; lia. }
  destruct (v <? 2 ^ 1024); [exact Hv | exact I].
Qed.

Lemma times_not_negative (x : integral) (k : Z) :
  0 <= k -> not_negative x -> not_negative (times x k).
Proof.
  destruct x as [a|]; simpl; [|trivial]. intros Hk Ha.
  apply to_double_not_negative. nia.
Qed.

Lemma plus_not_negative (x y : integral) :
  not_negative x -> not_negative y -> not_negative (plus x y).
Proof.
  destruct x as [a|], y as [b|]; simpl; trivial. intros Ha Hb.
  apply to_double_not_negative. lia.
Qed.

(** *** From the captures to the result *)

Lemma timeStringToSeconds_captures (str s1 s2 s3 : string) (h m s : option string) :
  optional_group "h" str = (h, s1) ->
  optional_group "m" s1 = (m, s2) ->
  optional_group "s" s2 = (s, s3) ->
  timeStringToSeconds str
  = plus (plus (capture_seconds h [60; 60]) (capture_seconds m [60]))
         (capture_seconds s []).
Proof.
  intros Hh Hm Hs. unfold timeStringToSeconds, timeSplit_exec.
  rewrite Hh, Hm, Hs. unfold capture, capture_seconds. simpl nth.
  destruct h as [[|? ?]|], m as [[|? ?]|], s as [[|? ?]|]; reflexivity.
Qed.

Lemma capture_seconds_not_negative (n : option string) (factors : list Z) :
  is_count n = true -> Forall (fun k => 0 <= k) factors ->
  not_negative (capture_seconds n factors).
Proof.
  intros Hn Hk. destruct n as [d|]; [|simpl; lia].
  destruct (is_count_some d Hn) as [Hall [c [d' ->]]].
  unfold capture_seconds, parseInt_number. rewrite (parseInt_numeral _ Hall).
  pose proof (to_double_not_negative _ (numeral_value_nonneg _ Hall)) as H.
  revert H. generalize (to_double (numeral_value (String c d'))).
  induction Hk as [|k ks Hk0 _ IH]; intros x Hx; simpl; [exact Hx|].
  apply IH. now apply times_not_negative.
Qed.

Lemma captures_double (h m s : option string) :
  is_count h = true -> is_count m = true -> is_count s = true ->
  plus (plus (capture_seconds h [60; 60]) (capture_seconds m [60]))
       (capture_seconds s [])
  = double_seconds h m s.
Proof.
  assert (G : forall n, is_count n = true ->
                capture_seconds n [60; 60]
                = times (times (to_double (count_value n)) 60) 60
                /\ capture_seconds n [60] = times (to_double (count_value n)) 60
                /\ capture_seconds n [] = to_double (count_value n)).
  { intros [d|] Hn; [|now repeat split].
    destruct (is_count_some d Hn) as [Hall [c [d' ->]]].
    unfold capture_seconds, parseInt_number, count_value.
    rewrite (parseInt_numeral _ Hall). now repeat split. }
  intros Hh Hm Hs. unfold double_seconds.
  destruct (G h Hh) as [-> _]. destruct (G m Hm) as [_ [-> _]].
  destruct (G s Hs) as [_ [_ ->]]. reflexivity.
Qed.

(** One capture, when its seconds are an integer a double holds. *)
Lemma capture_seconds_count (n : option string) :
  is_count n = true ->
  (count_value n * 3600 <= MAX_SAFE_INTEGER ->
   capture_seconds n [60; 60] = Finite (count_value n * 3600))
  /\ (count_value n * 60 <= MAX_SAFE_INTEGER ->
      capture_seconds n [60] = Finite (count_value n * 60))
  /\ (count_value n <= MAX_SAFE_INTEGER ->
      capture_seconds n [] = Finite (count_value n)).
Proof.
  intros Hn. pose proof (count_value_nonneg n Hn) as H0.
  destruct n as [d|]; [|repeat split].
  destruct (is_count_some d Hn) as [Hall [c [d' ->]]].
  unfold capture_seconds, parseInt_number. rewrite (parseInt_numeral _ Hall).
  unfold count_value in *. set (v := numeral_value (String c d')) in *.
  simpl fold_left. unfold times. repeat split; intros Hb.
  - rewrite (to_double_exact v) by safe.
    rewrite (to_double_exact (v * 60)) by safe.
    rewrite (to_double_exact (v * 60 * 60)) by safe. f_equal. lia.
  - rewrite (to_double_exact v) by safe. now rewrite (to_double_exact (v * 60)) by safe.
  - now rewrite (to_double_exact v) by safe.
Qed.

(** Three captures, when their total is an integer a double holds. *)
Lemma captures_total (h m s : option string) :
  is_count h = true -> is_count m = true -> is_count s = true ->
  total_seconds h m s <= MAX_SAFE_INTEGER ->
  plus (plus (capture_seconds h [60; 60]) (capture_seconds m [60]))
       (capture_seconds s [])
  = Finite (total_seconds h m s).
Proof.
  unfold total_seconds. intros Hh Hm Hs Hb.
  pose proof (count_value_nonneg h Hh). pose proof (count_value_nonneg m Hm).
  pose proof (count_value_nonneg s Hs).
  destruct (capture_seconds_count h Hh) as [Eh _].
  destruct (capture_seconds_count m Hm) as [_ [Em _]].
  destruct (capture_seconds_count s Hs) as [_ [_ Es]].
  rewrite Eh, Em, Es by safe.
  unfold plus. rewrite to_double_exact by safe. now rewrite to_double_exact by safe.
Qed.

Lemma group_text_append (d : string) (u : ascii) (tail : string) :
  (group_text (Some d) u ++ tail)%string = (d ++ String u tail)%string.
Proof. simpl. now rewrite append_assoc. Qed.

Lemma optional_group_last (s : option string) (rest : string) :
  is_count s = true -> begins_with_group rest = false ->
  optional_group "s" (group_text s "s" ++ rest) = (s, rest).
Proof.
  intros Hs Hrest. destruct s as [d|].
  - rewrite group_text_append. now apply optional_group_present.
  - now apply optional_group_absent.
Qed.

Lemma optional_group_middle (m s : option string) (rest : string) :
  is_count m = true -> is_count s = true -> begins_with_group rest = false ->
  optional_group "m" (group_text m "m" ++ group_text s "s" ++ rest)
  = (m, (group_text s "s" ++ rest)%string).
Proof.
  intros Hm Hs Hrest. destruct m as [d|].
  - rewrite group_text_append. now apply optional_group_present.
  - simpl group_text at 1. simpl append at 1. destruct s as [d|].
    + rewrite group_text_append. now apply optional_group_other_unit.
    + now apply optional_group_absent.
Qed.

Lemma optional_group_leading (h m s : option string) (rest : string) :
  is_count h = true -> is_count m = true -> is_count s = true ->
  begins_with_group rest = false ->
  optional_group "h" (group_text h "h" ++ group_text m "m" ++ group_text s "s" ++ rest)
  = (h, (group_text m "m" ++ group_text s "s" ++ rest)%string).
Proof.
  intros Hh Hm Hs Hrest. destruct h as [d|].
  - rewrite group_text_append. now apply optional_group_present.
  - simpl group_text at 1. simpl append at 1. destruct m as [d|].
    + rewrite group_text_append. now apply optional_group_other_unit.
    + simpl group_text at 1. simpl append at 1. destruct s as [d|].
      * rewrite group_text_append. now apply optional_group_other_unit.
      * now apply optional_group_absent.
Qed.

Lemma leading_groups_total (h m s : option string) (rest : string) :
  is_count h = true -> is_count m = true -> is_count s = true ->
  begins_with_group rest = false ->
  total_seconds h m s <= MAX_SAFE_INTEGER ->
  timeStringToSeconds (offset_text h m s ++ rest) = Finite (total_seconds h m s).
Proof.
  intros Hh Hm Hs Hrest Hb. unfold offset_text. rewrite !append_assoc.
  rewrite (timeStringToSeconds_captures _ _ _ _ _ _ _
             (optional_group_leading h m s rest Hh Hm Hs Hrest)
             (optional_group_middle m s rest Hm Hs Hrest)
             (optional_group_last s rest Hs Hrest)).
  now apply captures_total.
Qed.

(** With no leading group the result is 0, whatever the text. *)
Lemma timeStringToSeconds_no_group (str : string) :
  begins_with_group str = false -> timeStringToSeconds str = Finite 0.
Proof.
  intros H.
  apply (leading_groups_total None None None str eq_refl eq_refl eq_refl H).
  unfold total_seconds, MAX_SAFE_INTEGER. simpl. lia.
Qed.

(** A text of the offset form holds digits and unit letters only. *)
Lemma offset_form_chars (str : string) :
  offset_form str -> all_chars (fun c => is_digit c || is_unit c) str = true.
Proof.
  intros [h [m [s [Hh [Hm [Hs ->]]]]]]. unfold offset_text.
  assert (G : forall n u, is_count n = true -> is_unit u = true ->
                all_chars (fun c => is_digit c || is_unit c) (group_text n u) = true).
  { intros [d|] u Hn Hu; [|reflexivity].
    destruct (is_count_some d Hn) as [Hall _]. simpl.
    rewrite all_chars_append. simpl. rewrite Hu, orb_true_r. simpl.
    rewrite andb_true_r. rewrite all_digits_all_chars in Hall.
    clear Hn. induction d as [|c d IH]; [reflexivity|].
    simpl in *. apply andb_true_iff in Hall. destruct Hall as [Hc Hd].
    now rewrite Hc, (IH Hd). }
  rewrite !all_chars_append, !G by (assumption || reflexivity). reflexivity.
Qed.

Lemma digits_prefix_split (s : string) : forall d r : string,
  digits_prefix s = (d, r) -> s = (d ++ r)%string /\ all_digits d = true.
Proof.
  induction s as [|c s IH]; simpl; intros d r H.
  - injection H as <- <-. now split.
  - destruct (is_digit c) eqn:Hc.
    + destruct (digits_prefix s) as [d' r'] eqn:E. injection H as <- <-.
      destruct (IH d' r' eq_refl) as [-> Hd]. simpl. now rewrite Hc, Hd.
    + injection H as <- <-. now split.
Qed.

Lemma optional_group_split (u : ascii) (s : string) (n : option string) (r : string) :
  optional_group u s = (n, r) ->
  is_count n = true /\ s = (group_text n u ++ r)%string.
Proof.
  unfold optional_group. destruct (digits_prefix s) as [d r0] eqn:E.
  destruct (digits_prefix_split s d r0 E) as [Hs Hd].
  destruct d as [|x d]; [intros H; injection H as <- <-; now split|].
  destruct r0 as [|c rest]; [intros H; injection H as <- <-; now split|].
  destruct (Ascii.eqb_spec c u) as [->|_]; intros H; injection H as <- <-.
  - split; [exact Hd|]. now rewrite group_text_append.
  - now split.
Qed.

(** *** Readings *)

(** A group is skipped exactly where the text does not start with one. *)
Lemma optional_group_skips (u : ascii) (str : string) :
  is_digit u = false ->
  (optional_group u str = (None, str) <-> ~ starts_with u str).
Proof.
  intros Hu. split.
  - intros Hnone [d [rest [Hd ->]]].
    rewrite (optional_group_present u d rest Hd Hu) in Hnone. discriminate.
  - intros Hno. unfold optional_group.
    destruct (digits_prefix str) as [d r0] eqn:E.
    destruct (digits_prefix_split str d r0 E) as [Hstr Hd].
    destruct d as [|x d]; [reflexivity|]. destruct r0 as [|c rest]; [reflexivity|].
    destruct (Ascii.eqb_spec c u) as [->|_]; [|reflexivity].
    exfalso. apply Hno. exists (String x d), rest. split; [exact Hd | exact Hstr].
Qed.

Lemma optional_group_None (u : ascii) (str r : string) :
  optional_group u str = (None, r) -> r = str.
Proof.
  unfold optional_group. destruct (digits_prefix str) as [[|x d] [|c rest]];
    try (intros H; now injection H).
  destruct (Ascii.eqb c u); intros H; [discriminate | now injection H].
Qed.

(** The groups of a reading are the captures of the expression. *)
Lemma reading_captures (str : string) (h m s : option string) (rest : string) :
  reading str h m s rest ->
  optional_group "h" str = (h, (group_text m "m" ++ group_text s "s" ++ rest)%string)
  /\ optional_group "m" (group_text m "m" ++ group_text s "s" ++ rest)
     = (m, (group_text s "s" ++ rest)%string)
  /\ optional_group "s" (group_text s "s" ++ rest) = (s, rest).
Proof.
  intros [Hh [Hm [Hs [-> [Nh [Nm Ns]]]]]]. unfold offset_text.
  rewrite !append_assoc. split; [|split].
  - destruct h as [d|].
    + rewrite group_text_append. now apply optional_group_present.
    + apply optional_group_skips; [reflexivity | now apply Nh].
  - destruct m as [d|].
    + rewrite group_text_append. now apply optional_group_present.
    + apply optional_group_skips; [reflexivity | now apply Nm].
  - destruct s as [d|].
    + rewrite group_text_append. now apply optional_group_present.
    + apply optional_group_skips; [reflexivity | now apply Ns].
Qed.

(** The captures of the expression are a reading. *)
Lemma captures_reading (str s1 s2 s3 : string) (h m s : option string) :
  optional_group "h" str = (h, s1) ->
  optional_group "m" s1 = (m, s2) ->
  optional_group "s" s2 = (s, s3) ->
  reading str h m s s3.
Proof.
  intros Eh Em Es.
  destruct (optional_group_split _ _ _ _ Eh) as [Hh Hstr].
  destruct (optional_group_split _ _ _ _ Em) as [Hm Hs1].
  destruct (optional_group_split _ _ _ _ Es) as [Hs Hs2].
  repeat split; try assumption.
  - unfold offset_text. rewrite !append_assoc. congruence.
  - intros ->. rewrite <- Hs2, <- Hs1.
    apply optional_group_skips; [reflexivity|].
    pose proof (optional_group_None _ _ _ Eh) as E. now rewrite E in *.
  - intros ->. rewrite <- Hs2.
    apply optional_group_skips; [reflexivity|].
    pose proof (optional_group_None _ _ _ Em) as E. now rewrite E in *.
  - intros ->. apply optional_group_skips; [reflexivity|].
    pose proof (optional_group_None _ _ _ Es) as E. now rewrite E in *.
Qed.

Lemma reading_exists (str : string) : exists h m s rest, reading str h m s rest.
Proof.
  destruct (optional_group "h" str) as [h s1] eqn:Eh.
  destruct (optional_group "m" s1) as [m s2] eqn:Em.
  destruct (optional_group "s" s2) as [s s3] eqn:Es.
  exists h, m, s, s3. exact (captures_reading _ _ _ _ _ _ _ Eh Em Es).
Qed.

Lemma reading_total (str : string) (h m s : option string) (rest : string) :
  reading str h m s rest -> total_seconds h m s <= MAX_SAFE_INTEGER ->
  timeStringToSeconds str = Finite (total_seconds h m s).
Proof.
  intros Hr Hb. destruct (reading_captures _ _ _ _ _ Hr) as [Eh [Em Es]].
  rewrite (timeStringToSeconds_captures _ _ _ _ _ _ _ Eh Em Es).
  destruct Hr as [Hh [Hm [Hs _]]]. now apply captures_total.
Qed.

Lemma reading_double (str : string) (h m s : option string) (rest : string) :
  reading str h m s rest -> timeStringToSeconds str = double_seconds h m s.
Proof.
  intros Hr. destruct (reading_captures _ _ _ _ _ Hr) as [Eh [Em Es]].
  rewrite (timeStringToSeconds_captures _ _ _ _ _ _ _ Eh Em Es).
  destruct Hr as [Hh [Hm [Hs _]]]. now apply captures_double.
Qed.

Lemma no_group_begins (str : string) :
  (forall u, is_unit u = true -> ~ starts_with u str) -> begins_with_group str = false.
Proof.
  intros Hno. unfold begins_with_group.
  destruct (digits_prefix str) as [d r0] eqn:E.
  destruct (digits_prefix_split str d r0 E) as [Hstr Hd].
  destruct d as [|x d]; [reflexivity|]. destruct r0 as [|c rest]; [reflexivity|].
  destruct (is_unit c) eqn:Hc; [|reflexivity].
  exfalso. apply (Hno c Hc). exists (String x d), rest. split; [exact Hd | exact Hstr].
Qed.

(** C3, as the code has it.  The expression is matched at the start of the
    text and is not anchored at its end, and the arithmetic is that of
    doubles.  Every text has a reading: the groups [(<N>h)?(<N>m)?(<N>s)?] at
    its start, each taken where the text at that point starts with a count
    and the unit letter, and the remainder.  The result is the total of the
    reading in double arithmetic, absent groups counting 0: whenever
    h*3600 + m*60 + s is at most 2^53 - 1, it is exactly that total.  So a
    text of the form gives its total, and a text that starts with no group
    gives 0; a text with something after its leading groups gives the total
    of the leading groups. *)
Theorem timeStringToSeconds_leading_groups :
  (forall str, exists h m s rest, reading str h m s rest)
  /\ (forall str h m s rest,
        reading str h m s rest ->
        timeStringToSeconds str = double_seconds h m s
        /\ (total_seconds h m s <= MAX_SAFE_INTEGER ->
            timeStringToSeconds str = Finite (total_seconds h m s)))
  /\ (forall h m s,
        is_count h = true -> is_count m = true -> is_count s = true ->
        total_seconds h m s <= MAX_SAFE_INTEGER ->
        timeStringToSeconds (offset_text h m s) = Finite (total_seconds h m s))
  /\ (forall str,
        (forall u, is_unit u = true -> ~ starts_with u str) ->
        timeStringToSeconds str = Finite 0).
Proof.
  split; [exact reading_exists|]. split; [|split].
  - intros str h m s rest Hr. split; [exact (reading_double _ _ _ _ _ Hr)|].
    exact (reading_total _ _ _ _ _ Hr).
  - intros h m s Hh Hm Hs Hb. rewrite <- (append_empty_r (offset_text h m s)).
    now apply leading_groups_total.
  - intros str Hno. apply timeStringToSeconds_no_group. now apply no_group_begins.
Qed.

Lemma timeStringToSeconds_leading_groups_witness :
  timeStringToSeconds "1h30m" = Finite 5400
  /\ timeStringToSeconds "5m1h" = Finite 300
  /\ timeStringToSeconds "1h30m10s5s" = Finite 5410.
Proof.
  destruct timeStringToSeconds_leading_groups as [_ [Hread [Hform _]]].
  split; [|split].
  - apply (Hform (Some "1"%string) (Some "30"%string) None); try reflexivity.
    vm_compute. discriminate.
  - apply (fun r => proj2 (Hread "5m1h"%string None (Some "5"%string) None
                                  "1h"%string r)).
    + repeat split; try reflexivity; intros E.
      * now apply (proj1 (optional_group_skips "h" "5m1h" eq_refl)).
      * discriminate E.
      * now apply (proj1 (optional_group_skips "s" "1h" eq_refl)).
    + vm_compute. discriminate.
  - apply (fun r => proj2 (Hread "1h30m10s5s"%string (Some "1"%string)
                                  (Some "30"%string) (Some "10"%string)
                                  "5s"%string r)).
    + repeat split; try reflexivity; discriminate.
    + vm_compute. discriminate.
Defined.

(** C3, as the claim words it, fails twice.  A malformed text with a
    well-formed leading group does not give 0; and a text of the form whose
    count is too large for a double to hold does not give its total. *)
Lemma timeStringToSeconds_malformed_not_zero :
  (~ offset_form "1hx" /\ timeStringToSeconds "1hx" = Finite 3600)
  /\ (offset_form "99999999999999999999s"
      /\ total_seconds None None (Some "99999999999999999999"%string)
         = 99999999999999999999
      /\ timeStringToSeconds "99999999999999999999s" = Finite 100000000000000000000).
Proof.
  split; [split|split; [|split]].
  - intros H. apply offset_form_chars in H. discriminate H.
  - reflexivity.
  - exists None, None, (Some "99999999999999999999"%string). now repeat split.
  - vm_compute. reflexivity.
  - vm_compute. reflexivity.
Qed.

(** X3: every text has exactly one reading, and it is what the expression
    captures.  For every text there are groups [h], [m], [s] and a remainder
    that read it from the left, no other groups and remainder do, the match
    array of the expression holds exactly these counts as its captures 2, 4
    and 6 and the text of the groups as its element 0, and the result is the
    total of these counts in double arithmetic: h*3600 + m*60 + s itself
    whenever that is at most 2^53 - 1. *)
Theorem timeStringToSeconds_total (str : string) :
  exists h m s rest,
    reading str h m s rest
    /\ (forall h' m' s' rest',
          reading str h' m' s' rest' -> h' = h /\ m' = m /\ s' = s /\ rest' = rest)
    /\ (exists timeSplit,
          timeSplit_exec str = Some timeSplit
          /\ capture timeSplit 0 = Some (offset_text h m s)
          /\ capture timeSplit 2 = h
          /\ capture timeSplit 4 = m
          /\ capture timeSplit 6 = s)
    /\ timeStringToSeconds str = double_seconds h m s
    /\ (total_seconds h m s <= MAX_SAFE_INTEGER ->
        timeStringToSeconds str = Finite (total_seconds h m s)).
Proof.
  destruct (optional_group "h" str) as [h s1] eqn:Eh.
  destruct (optional_group "m" s1) as [m s2] eqn:Em.
  destruct (optional_group "s" s2) as [s s3] eqn:Es.
  pose proof (captures_reading _ _ _ _ _ _ _ Eh Em Es) as Hr.
  exists h, m, s, s3. split; [exact Hr|]. split; [|split; [|split]].
  - intros h' m' s' rest' Hr'.
    destruct (reading_captures _ _ _ _ _ Hr') as [Eh' [Em' Es']].
    rewrite Eh in Eh'. injection Eh' as Hh' Hs1. rewrite <- Hs1 in Em'.
    rewrite Em in Em'. injection Em' as Hm' Hs2. rewrite <- Hs2 in Es'.
    rewrite Es in Es'. injection Es' as Hs' Hs3. now repeat split.
  - unfold timeSplit_exec. rewrite Eh, Em, Es. eexists. split; [reflexivity|].
    repeat split. unfold capture, offset_text. simpl nth. f_equal.
    destruct h, m, s; simpl; rewrite ?append_empty_r; reflexivity.
  - rewrite (timeStringToSeconds_captures _ _ _ _ _ _ _ Eh Em Es).
    destruct Hr as [Hh [Hm [Hs _]]]. now apply captures_double.
  - intros Hb. now apply (reading_total _ _ _ _ _ Hr).
Qed.

(** ** The manifest: shape of a successful build *)

Lemma length_map_from {A B : Type} (f : A -> nat -> B) (l : list A) : forall k,
  List.length (map_from f k l) = List.length l.
Proof. induction l as [|x l IH]; intros k; simpl; [reflexivity | now rewrite IH]. Qed.

Lemma nth_error_map_from {A B : Type} (f : A -> nat -> B) (l : list A) :
  forall (k i : nat) (x : A),
    nth_error l i = Some x -> nth_error (map_from f k l) i = Some (f x (k + i)%nat).
Proof.
  induction l as [|y l IH]; intros k i x H.
  - destruct i; discriminate.
  - destruct i as [|i]; simpl in *.
    + injection H as ->. now rewrite Nat.add_0_r.
    + rewrite (IH (S k) i x H). f_equal. f_equal. lia.
Qed.

Section ManifestShape.

Variable t : string -> string.
Variable Date_getTime : string -> number.

Variable tracks : list Track.
Variable title : string.
Variable duration : number.
Variable isLive : bool.
Variable captions : list Caption.
Variable startTime endTime : option string.
Variable previewImage : option string.

Let build :=
  PaellaPlayer_manifest t Date_getTime tracks title duration isLive captions
                        startTime endTime previewImage.

(** A build succeeds exactly when the grouping loop does. *)
Lemma PaellaPlayer_manifest_returns (tracksByKind : Obj (list Track)) :
  group_tracks tracks = Ok tracksByKind -> exists m log, build = Ok (m, log).
Proof.
  intros Hg. unfold build, PaellaPlayer_manifest. rewrite Hg. simpl bind.
  destruct (_ && _) eqn:Hcond; [|eauto].
  destruct (map (stream_of_entry isLive) (Object_entries tracksByKind)) as [|first others];
    [discriminate | eauto].
Qed.

Lemma PaellaPlayer_manifest_throws (e : exn) :
  group_tracks tracks = Throw e -> build = Throw e.
Proof.
  intros Hg. unfold build, PaellaPlayer_manifest. now rewrite Hg.
Qed.

(** What a successful build holds. *)
Lemma PaellaPlayer_manifest_inv (m : Manifest) (log : list Diagnostic) :
  build = Ok (m, log) ->
  exists tracksByKind,
    group_tracks tracks = Ok tracksByKind
    /\ metadata m
       = {| metadata_title := title;
            metadata_duration := fixedDuration Date_getTime duration startTime endTime;
            preview := previewImage |}
    /\ manifest_captions m
       = map_indexed (manifest_caption t (List.length captions)) captions
    /\ let streams0 := map (stream_of_entry isLive) (Object_entries tracksByKind) in
       ((1 <? List.length streams0)%nat && negb (has_property "presenter" tracksByKind) = true
        /\ (exists first others,
              streams0 = first :: others
              /\ streams m = with_role first "mainAudio" :: others)
        /\ log = [console_warn "Picking first stream as main audio source. Tracks: " tracks])
       \/
       ((1 <? List.length streams0)%nat && negb (has_property "presenter" tracksByKind) = false
        /\ streams m = streams0
        /\ log = []).
Proof.
  unfold build, PaellaPlayer_manifest.
  destruct (group_tracks tracks) as [tracksByKind|e]; [|discriminate].
  simpl bind. intros H. exists tracksByKind. split; [reflexivity|].
  destruct (_ && _) eqn:Hcond.
  - destruct (map (stream_of_entry isLive) (Object_entries tracksByKind))
      as [|first others] eqn:Hstreams; [discriminate|].
    injection H as <- <-. simpl. repeat split. left. repeat split. eauto.
  - injection H as <- <-. simpl. repeat split. right. repeat split.
Qed.

End ManifestShape.

(** ** The effective duration *)

Lemma truthy_some (s : string) : s <> EmptyString -> truthy (Some s) = true.
Proof. destruct s; [congruence | reflexivity]. Qed.


Section Duration.

Variable t : string -> string.
Variable Date_getTime : string -> number.


End Duration.


(** ** Caption labels *)

Section Captions.

Variable t : string -> string.
Variable Date_getTime : string -> number.

Lemma caption_text_parts (count : nat) (lang : option string) (index : nat) :
  caption_text t count lang index
  = (t "video.caption"
     ++ match lang with
        | Some (String c l) => " (" ++ String c l ++ ")"
        | _ => ""
        end
     ++ (if (1 <? count)%nat then " [" ++ string_of_nat (index + 1) ++ "]" else ""))%string.
Proof. unfold caption_text. destruct lang as [[|c l]|]; reflexivity. Qed.

(** C6: a successful build carries one caption descriptor per input
    caption, in input order, with the caption's URI and the "vtt" format;
    its label is the localized caption label, then " (<language>)" exactly
    when the language tag is present (a non-empty string), then
    " [<index + 1>]" exactly when the list holds more than one caption.  With
    one caption there is no index suffix. *)
Theorem caption_labels
  (tracks : list Track) (title : string) (duration : number) (isLive : bool)
  (captions : list Caption) (startTime endTime : option string)
  (previewImage : option string) (m : Manifest) (log : list Diagnostic) :
  PaellaPlayer_manifest t Date_getTime tracks title duration isLive captions
                        startTime endTime previewImage = Ok (m, log) ->
  List.length (manifest_captions m) = List.length captions
  /\ (forall (i : nat) (c : Caption),
        nth_error captions i = Some c ->
        exists d,
          nth_error (manifest_captions m) i = Some d
          /\ format d = "vtt"%string
          /\ url d = caption_uri c
          /\ lang d = caption_lang c
          /\ text d
             = (t "video.caption"
                ++ match caption_lang c with
                   | Some (String a l) => " (" ++ String a l ++ ")"
                   | _ => ""
                   end
                ++ (if (1 <? List.length captions)%nat
                    then " [" ++ string_of_nat (i + 1) ++ "]"
                    else ""))%string)
  /\ (forall c : Caption,
        captions = [c] ->
        map text (manifest_captions m)
        = [(t "video.caption"
            ++ match caption_lang c with
               | Some (String a l) => " (" ++ String a l ++ ")"
               | _ => ""
               end)%string]).
Proof.
  intros H. apply PaellaPlayer_manifest_inv in H.
  destruct H as [o [_ [_ [Hcaps _]]]]. rewrite Hcaps. unfold map_indexed.
  split; [apply length_map_from|]. split.
  - intros i c Hc. eexists. split.
    + apply (nth_error_map_from _ _ 0%nat i c Hc).
    + simpl. repeat split. apply caption_text_parts.
  - intros c ->. simpl. rewrite caption_text_parts. simpl.
    now rewrite append_empty_r.
Qed.

End Captions.

(** The labels of the specification's examples: one English caption, and an
    English and a French one. *)
Lemma caption_labels_witness :
  (exists m log,
     PaellaPlayer_manifest sample_t sample_getTime
       [sample_track "a.mp4" "presenter/delivery"] "Lecture" (of_Z 60) false
       [{| caption_uri := "en.vtt"; caption_lang := Some "en"%string |}]
       None None None = Ok (m, log)
     /\ map text (manifest_captions m) = ["Caption (en)"%string])
  /\ (exists m log,
        PaellaPlayer_manifest sample_t sample_getTime
          [sample_track "a.mp4" "presenter/delivery"] "Lecture" (of_Z 60) false
          [{| caption_uri := "en.vtt"; caption_lang := Some "en"%string |};
           {| caption_uri := "fr.vtt"; caption_lang := Some "fr"%string |}]
          None None None = Ok (m, log)
        /\ map text (manifest_captions m)
           = ["Caption (en) [1]"; "Caption (fr) [2]"]%string).
Proof.
  split.
  - eexists. eexists. split; [reflexivity|].
    exact (proj2 (proj2 (caption_labels sample_t sample_getTime
                           [sample_track "a.mp4" "presenter/delivery"] "Lecture"
                           (of_Z 60) false
                           [{| caption_uri := "en.vtt";
                               caption_lang := Some "en"%string |}]
                           None None None _ _ eq_refl)) _ eq_refl).
  - eexists. eexists. split; [reflexivity|].
    pose proof (proj1 (proj2 (caption_labels sample_t sample_getTime
                                [sample_track "a.mp4" "presenter/delivery"] "Lecture"
                                (of_Z 60) false
                                [{| caption_uri := "en.vtt";
                                    caption_lang := Some "en"%string |};
                                 {| caption_uri := "fr.vtt";
                                    caption_lang := Some "fr"%string |}]
                                None None None _ _ eq_refl))) as H.
    destruct (H 0%nat _ eq_refl) as [d0 [E0 [_ [_ [_ T0]]]]].
    destruct (H 1%nat _ eq_refl) as [d1 [E1 [_ [_ [_ T1]]]]].
    injection E0 as E0. injection E1 as E1.
    rewrite <- E0 in T0. rewrite <- E1 in T1.
    exact (f_equal2 (fun a b => [a; b]) T0 T1).
Defined.

(** ** Kinds and kind groups *)

Lemma first_piece_whole (sep : ascii) (s : string) :
  occurs sep s = false -> first_piece (split sep s) = s.
Proof.
  induction s as [|c s IH]; simpl; intros H; [reflexivity|].
  apply orb_false_iff in H. destruct H as [Hc Hs]. rewrite Hc.
  specialize (IH Hs). destruct (split sep s) as [|piece pieces]; simpl in *.
  - now subst.
  - now subst.
Qed.

Lemma first_piece_before (sep : ascii) (p r : string) :
  occurs sep p = false -> first_piece (split sep (p ++ String sep r)) = p.
Proof.
  induction p as [|c p IH]; simpl; intros H.
  - now rewrite Ascii.eqb_refl.
  - apply orb_false_iff in H. destruct H as [Hc Hp]. rewrite Hc.
    specialize (IH Hp).
    destruct (split sep (p ++ String sep r)) as [|piece pieces]; simpl in *.
    + now subst.
    + now subst.
Qed.

(** The kind of a track is its flavor up to the first "/", the whole flavor
    when it has none. *)
Lemma kind_of_flavor (t : Track) :
  (occurs "/" (flavor t) = false -> kind_of t = flavor t)
  /\ (forall p r, flavor t = (p ++ String "/" r)%string -> occurs "/" p = false ->
                  kind_of t = p).
Proof.
  unfold kind_of. split.
  - apply first_piece_whole.
  - intros p r -> Hp. now apply first_piece_before.
Qed.

Lemma existsb_eqb_In (x : string) (l : list string) :
  existsb (String.eqb x) l = true <-> In x l.
Proof.
  rewrite existsb_exists. split.
  - intros [y [Hy Hxy]]. apply String.eqb_eq in Hxy. now subst.
  - intros H. exists x. split; [exact H | apply String.eqb_refl].
Qed.

Lemma distinct_In (x : string) (l : list string) : In x (distinct l) <-> In x l.
Proof.
  induction l as [|a l IH]; simpl; [reflexivity|].
  rewrite filter_In, IH, negb_true_iff, String.eqb_neq.
  destruct (string_dec a x) as [->|Hne]; intuition congruence.
Qed.

Lemma distinct_NoDup (l : list string) : NoDup (distinct l).
Proof.
  induction l as [|a l IH]; simpl; constructor.
  - rewrite filter_In, negb_true_iff, String.eqb_neq. intros [_ H]. now apply H.
  - now apply NoDup_filter.
Qed.

Lemma distinct_snoc (l : list string) (x : string) :
  distinct (l ++ [x])
  = if existsb (String.eqb x) l then distinct l else distinct l ++ [x].
Proof.
  induction l as [|a l IH]; simpl; [reflexivity|].
  rewrite IH. destruct (existsb (String.eqb x) l).
  - now rewrite orb_true_r.
  - rewrite orb_false_r, filter_app. simpl.
    destruct (String.eqb x a); simpl; [now rewrite app_nil_r | reflexivity].
Qed.

Lemma kinds_snoc (done : list Track) (t : Track) :
  kinds (done ++ [t])
  = if existsb (String.eqb (kind_of t)) (kinds done)
    then kinds done
    else kinds done ++ [kind_of t].
Proof.
  unfold kinds. rewrite map_app. simpl. rewrite distinct_snoc.
  replace (existsb (String.eqb (kind_of t)) (distinct (map kind_of done)))
    with (existsb (String.eqb (kind_of t)) (map kind_of done)); [reflexivity|].
  apply eq_true_iff_eq. rewrite !existsb_eqb_In. symmetry. apply distinct_In.
Qed.

Lemma get_own_keyed {V : Type} (f : string -> V) (key : string) (ks : list string) :
  get_own key (map (fun k => (k, f k)) ks)
  = if existsb (String.eqb key) ks then Some (f key) else None.
Proof.
  induction ks as [|k ks IH]; simpl; [reflexivity|].
  rewrite (String.eqb_sym key k).
  destruct (String.eqb_spec k key) as [->|Hne]; simpl; [reflexivity | exact IH].
Qed.

Lemma get_own_app_miss {V : Type} (key : string) (o o' : Obj V) :
  get_own key o = None -> get_own key (o ++ o') = get_own key o'.
Proof.
  induction o as [|[k v] o IH]; simpl; [reflexivity|].
  destruct (String.eqb k key); [discriminate | exact IH].
Qed.

Lemma update_own_app_miss {V : Type} (key : string) (v : V) (o o' : Obj V) :
  get_own key o = None -> update_own key v (o ++ o') = o ++ update_own key v o'.
Proof.
  induction o as [|[k w] o IH]; simpl; [reflexivity|].
  destruct (String.eqb k key); [discriminate|].
  intros H. now rewrite (IH H).
Qed.

Lemma update_own_keyed {V : Type} (f : string -> V) (key : string) (v : V)
  (ks : list string) :
  NoDup ks ->
  update_own key v (map (fun k => (k, f k)) ks)
  = map (fun k => (k, if String.eqb k key then v else f k)) ks.
Proof.
  induction ks as [|k ks IH]; simpl; intros Hnd; [reflexivity|].
  inversion Hnd as [|? ? Hk Hks]; subst.
  destruct (String.eqb_spec k key) as [->|Hne].
  - f_equal. apply map_ext_in. intros k' Hk'.
    destruct (String.eqb_spec k' key) as [->|_]; [contradiction | reflexivity].
  - f_equal. now apply IH.
Qed.

Lemma filter_snoc {A : Type} (p : A -> bool) (l : list A) (x : A) :
  filter p (l ++ [x]) = filter p l ++ (if p x then [x] else []).
Proof. rewrite filter_app. reflexivity. Qed.

Lemma filter_has_kind_none (k : string) (done : list Track) :
  existsb (String.eqb k) (kinds done) = false -> filter (has_kind k) done = [].
Proof.
  intros H. induction done as [|t done IH]; [reflexivity|].
  assert (Hk : ~ In k (kinds (t :: done))).
  { intros Hin. apply existsb_eqb_In in Hin. congruence. }
  unfold kinds in Hk. rewrite distinct_In in Hk. simpl in Hk.
  simpl. unfold has_kind at 1.
  destruct (String.eqb_spec (kind_of t) k) as [E|_]; [exfalso; auto|].
  apply IH. apply not_true_is_false. intros Hin.
  apply existsb_eqb_In in Hin. unfold kinds in Hin. rewrite distinct_In in Hin.
  auto.
Qed.

(** ** The grouping loop *)

Lemma has_own_groups_of (k : string) (done : list Track) :
  has_own k (groups_of done) = existsb (String.eqb k) (kinds done).
Proof.
  unfold has_own, groups_of. rewrite get_own_keyed.
  destruct (existsb _ _); reflexivity.
Qed.

(** One iteration on a track whose kind is not an inherited name extends the
    groups by that track. *)
Lemma group_step_groups_of (done : list Track) (t : Track) :
  inherited (kind_of t) = false ->
  group_step (groups_of done) t = Ok (groups_of (done ++ [t])).
Proof.
  intros Hin. unfold group_step, has_property.
  rewrite has_own_groups_of, Hin, orb_false_r.
  destruct (existsb (String.eqb (kind_of t)) (kinds done)) eqn:Hseen; simpl negb; cbv iota.
  - assert (Hnew : groups_of (done ++ [t])
                   = map (fun k => (k, filter (has_kind k) (done ++ [t]))) (kinds done)).
    { unfold groups_of. now rewrite kinds_snoc, Hseen. }
    rewrite Hnew. unfold groups_of. rewrite get_own_keyed, Hseen.
    rewrite update_own_keyed by apply distinct_NoDup. f_equal.
    apply map_ext. intros k. f_equal. rewrite filter_snoc.
    change (has_kind k t) with (String.eqb (kind_of t) k).
    rewrite (String.eqb_sym k).
    destruct (String.eqb_spec (kind_of t) k) as [->|_];
      [reflexivity | now rewrite app_nil_r].
  - assert (Hnew : groups_of (done ++ [t])
                   = map (fun k => (k, filter (has_kind k) (done ++ [t])))
                         (kinds done ++ [kind_of t])).
    { unfold groups_of. now rewrite kinds_snoc, Hseen. }
    rewrite Hnew. unfold set_property. rewrite has_own_groups_of, Hseen.
    assert (Hmiss : get_own (kind_of t) (groups_of done) = None).
    { unfold groups_of. now rewrite get_own_keyed, Hseen. }
    rewrite (get_own_app_miss _ _ _ Hmiss). simpl get_own.
    rewrite String.eqb_refl. rewrite (update_own_app_miss _ _ _ _ Hmiss).
    simpl update_own. rewrite String.eqb_refl. f_equal.
    rewrite map_app. simpl map. f_equal.
    + unfold groups_of. apply map_ext_in. intros k Hk. f_equal.
      rewrite filter_snoc. change (has_kind k t) with (String.eqb (kind_of t) k).
      destruct (String.eqb_spec (kind_of t) k) as [E|_]; [|now rewrite app_nil_r].
      exfalso. subst k. apply existsb_eqb_In in Hk. congruence.
    + rewrite filter_snoc.
      change (has_kind (kind_of t) t) with (String.eqb (kind_of t) (kind_of t)).
      rewrite String.eqb_refl.
      now rewrite (filter_has_kind_none _ _ Hseen).
Qed.

(** On a track whose kind is an inherited name, the iteration throws: no
    group of that name was ever created. *)
Lemma group_step_inherited (done : list Track) (t : Track) :
  Forall (fun d => inherited (kind_of d) = false) done ->
  inherited (kind_of t) = true ->
  group_step (groups_of done) t
  = Throw (TypeError "tracksByKind[kind].push is not a function").
Proof.
  intros Hdone Hin. unfold group_step, has_property.
  rewrite Hin, orb_true_r. simpl negb. cbv iota.
  unfold groups_of. rewrite get_own_keyed.
  destruct (existsb (String.eqb (kind_of t)) (kinds done)) eqn:Hseen; [|reflexivity].
  exfalso. apply existsb_eqb_In in Hseen. unfold kinds in Hseen.
  rewrite distinct_In, in_map_iff in Hseen. destruct Hseen as [d [Hd Hind]].
  rewrite Forall_forall in Hdone. specialize (Hdone d Hind). congruence.
Qed.

Lemma group_loop_groups_of (rest : list Track) : forall done : list Track,
  Forall (fun t => inherited (kind_of t) = false) rest ->
  group_loop (groups_of done) rest = Ok (groups_of (done ++ rest)).
Proof.
  induction rest as [|t rest IH]; intros done Hrest; simpl.
  - now rewrite app_nil_r.
  - inversion Hrest as [|? ? Ht Hrest']; subst.
    rewrite (group_step_groups_of done t Ht). simpl bind.
    rewrite (IH (done ++ [t]) Hrest'). now rewrite <- app_assoc.
Qed.

Lemma group_loop_inherited (rest : list Track) : forall done : list Track,
  Forall (fun d => inherited (kind_of d) = false) done ->
  Exists (fun t => inherited (kind_of t) = true) rest ->
  group_loop (groups_of done) rest
  = Throw (TypeError "tracksByKind[kind].push is not a function").
Proof.
  induction rest as [|t rest IH]; intros done Hdone Hex.
  - inversion Hex.
  - simpl. destruct (inherited (kind_of t)) eqn:Ht.
    + now rewrite (group_step_inherited done t Hdone Ht).
    + rewrite (group_step_groups_of done t Ht). simpl bind.
      apply IH.
      * apply Forall_app. split; [exact Hdone | now constructor].
      * inversion Hex as [? ? Hhere|? ? Hlater]; subst; [congruence | exact Hlater].
Qed.

(** The grouping loop yields the kind groups when no kind is an inherited
    name, and throws otherwise. *)
Lemma group_tracks_groups_of (tracks : list Track) :
  Forall (fun t => inherited (kind_of t) = false) tracks ->
  group_tracks tracks = Ok (groups_of tracks).
Proof. intros H. exact (group_loop_groups_of tracks [] H). Qed.

Lemma group_tracks_inherited (tracks : list Track) :
  Exists (fun t => inherited (kind_of t) = true) tracks ->
  group_tracks tracks = Throw (TypeError "tracksByKind[kind].push is not a function").
Proof. intros H. exact (group_loop_inherited tracks [] (Forall_nil _) H). Qed.

(** ** The order of [Object.entries] *)

Lemma sort_insert_Permutation {A : Type} (cmp : A -> A -> Z) (x : A) (l : list A) :
  Permutation (sort_insert cmp x l) (x :: l).
Proof.
  induction l as [|y l IH]; simpl; [apply Permutation_refl|].
  destruct (cmp x y <=? 0); [apply Permutation_refl|].
  apply Permutation_trans with (y :: x :: l); [now apply perm_skip | apply perm_swap].
Qed.

Lemma sort_Permutation {A : Type} (cmp : A -> A -> Z) (l : list A) :
  Permutation (JS.sort cmp l) l.
Proof.
  induction l as [|x l IH]; simpl; [apply Permutation_refl|].
  apply Permutation_trans with (x :: JS.sort cmp l);
    [apply sort_insert_Permutation | now apply perm_skip].
Qed.

Lemma filter_split_Permutation {A : Type} (p : A -> bool) (l : list A) :
  Permutation (filter p l ++ filter (fun x => negb (p x)) l) l.
Proof.
  induction l as [|x l IH]; simpl; [apply Permutation_refl|].
  destruct (p x); simpl.
  - now apply perm_skip.
  - apply Permutation_sym, Permutation_cons_app, Permutation_sym, IH.
Qed.

Lemma Object_entries_Permutation {V : Type} (o : Obj V) :
  Permutation (Object_entries o) o.
Proof.
  unfold Object_entries.
  apply Permutation_trans
    with (filter (fun p => is_array_index (fst p)) o
          ++ filter (fun p => negb (is_array_index (fst p))) o).
  - apply Permutation_app_tail, sort_Permutation.
  - apply filter_split_Permutation.
Qed.

(** Without array-index keys, the entries come in creation order. *)
Lemma Object_entries_creation_order {V : Type} (o : Obj V) :
  Forall (fun p => is_array_index (fst p) = false) o -> Object_entries o = o.
Proof.
  intros H. unfold Object_entries.
  rewrite (filter_none _ _ H), filter_all; [reflexivity|].
  apply Forall_impl with (2 := H). intros p Hp. now rewrite Hp.
Qed.

Lemma sort_insert_In {A : Type} (cmp : A -> A -> Z) (x y : A) (l : list A) :
  In y (sort_insert cmp x l) -> y = x \/ In y l.
Proof.
  intros H. apply (Permutation_in _ (sort_insert_Permutation cmp x l)) in H.
  destruct H as [<-|H]; [now left | now right].
Qed.

Lemma sort_insert_sorted {A : Type} (key : A -> Z) (cmp : A -> A -> Z)
  (x : A) (l : list A) :
  (forall y, In y l -> cmp x y = key x - key y) ->
  StronglySorted (fun a b => key a <= key b) l ->
  StronglySorted (fun a b => key a <= key b) (sort_insert cmp x l).
Proof.
  induction l as [|y l IH]; simpl; intros Hcmp Hl.
  - constructor; constructor.
  - inversion Hl as [|? ? Hl' Hy]; subst.
    pose proof (Hcmp y (or_introl eq_refl)) as Hxy.
    destruct (Z.leb_spec (cmp x y) 0) as [Hle|Hgt].
    + constructor; [exact Hl|]. constructor; [lia|].
      apply Forall_impl with (2 := Hy). intros z Hz. lia.
    + constructor.
      * apply IH; [|exact Hl']. intros z Hz. apply Hcmp. now right.
      * apply Forall_forall. intros z Hz. apply sort_insert_In in Hz.
        destruct Hz as [->|Hz]; [lia|].
        rewrite Forall_forall in Hy. now apply Hy.
Qed.

Lemma sort_sorted {A : Type} (key : A -> Z) (cmp : A -> A -> Z) (l : list A) :
  (forall x y, In x l -> In y l -> cmp x y = key x - key y) ->
  StronglySorted (fun a b => key a <= key b) (JS.sort cmp l).
Proof.
  induction l as [|x l IH]; simpl; intros Hcmp; [constructor|].
  apply sort_insert_sorted.
  - intros y Hy. apply (Permutation_in _ (sort_Permutation cmp l)) in Hy.
    apply Hcmp; [now left | now right].
  - apply IH. intros a b Ha Hb. apply Hcmp; now right.
Qed.

(** The entries start with the array-index keys, in ascending order of the
    index, and go on with the other keys, in creation order. *)
Lemma Object_entries_order {V : Type} (o : Obj V) :
  exists indexed others,
    Object_entries o = indexed ++ others
    /\ Permutation indexed (filter (fun p => is_array_index (fst p)) o)
    /\ StronglySorted (fun a b => index_value (fst a) <= index_value (fst b)) indexed
    /\ others = filter (fun p => negb (is_array_index (fst p))) o.
Proof.
  eexists. eexists. split; [reflexivity|]. split; [apply sort_Permutation|].
  split; [|reflexivity].
  apply (sort_sorted (fun p : string * V => index_value (fst p))).
  intros x y Hx Hy. apply filter_In in Hx. apply filter_In in Hy.
  destruct Hx as [_ Hx], Hy as [_ Hy].
  unfold is_array_index in Hx, Hy. unfold index_order, index_value.
  destruct (array_index (fst x)); [|discriminate].
  destruct (array_index (fst y)); [reflexivity | discriminate].
Qed.

Lemma map_fst_groups_of (tracks : list Track) : map fst (groups_of tracks) = kinds tracks.
Proof.
  unfold groups_of. rewrite map_map. simpl. apply map_id.
Qed.

Lemma In_groups_of (e : string * list Track) (tracks : list Track) :
  In e (groups_of tracks) ->
  In (fst e) (kinds tracks) /\ snd e = filter (has_kind (fst e)) tracks.
Proof.
  unfold groups_of. rewrite in_map_iff. intros [k [<- Hk]]. now split.
Qed.

Lemma In_kinds (k : string) (tracks : list Track) :
  In k (kinds tracks) <-> exists t, In t tracks /\ kind_of t = k.
Proof.
  unfold kinds. rewrite distinct_In, in_map_iff.
  split; intros [t [H1 H2]]; exists t; now split.
Qed.

(** ** Streams *)

(** The keys of a stream's sources: "mp4" for the progressive tracks, and
    "hlsLive" (live) or "hls" (recorded) for the segmented ones, each present
    exactly when it has a track. *)
Lemma tracksToPaellaSources_keys (tracks : list Track) (live : bool)
  (key : string) (srcs : list Source) :
  In (key, srcs) (tracksToPaellaSources tracks live)
  <-> (key = "mp4"%string /\ srcs = map trackToSource (mp4Tracks tracks)
       /\ mp4Tracks tracks <> [])
      \/ (key = (if live then "hlsLive" else "hls")%string
          /\ srcs = map trackToSource (hlsTracks tracks)
          /\ hlsTracks tracks <> []).
Proof.
  unfold tracksToPaellaSources, hlsKey. rewrite in_app_iff.
  destruct (mp4Tracks tracks) as [|a ms]; destruct (hlsTracks tracks) as [|b hs];
    simpl; split;
    intuition (try congruence; try discriminate;
               try match goal with
                   | H : (_, _) = (_, _) |- _ => injection H as <- <-
                   end; auto).
Qed.

Section Streams.

Variable t : string -> string.
Variable Date_getTime : string -> number.

Variable tracks : list Track.
Variable title : string.
Variable duration : number.
Variable isLive : bool.
Variable captions : list Caption.
Variable startTime endTime : option string.
Variable previewImage : option string.

Let build :=
  PaellaPlayer_manifest t Date_getTime tracks title duration isLive captions
                        startTime endTime previewImage.

Lemma streams_of_entries (m : Manifest) (log : list Diagnostic)
  (tracksByKind : Obj (list Track)) :
  build = Ok (m, log) -> group_tracks tracks = Ok tracksByKind ->
  map (fun s => (content s, sources s)) (streams m)
  = map (fun e => (fst e, tracksToPaellaSources (snd e) isLive))
        (Object_entries tracksByKind).
Proof.
  intros Hb Hg. apply PaellaPlayer_manifest_inv in Hb.
  destruct Hb as [o [Ho [_ [_ Hs]]]]. rewrite Hg in Ho. injection Ho as <-.
  assert (E : forall l : list (string * list Track),
             map (fun s => (content s, sources s)) (map (stream_of_entry isLive) l)
             = map (fun e => (fst e, tracksToPaellaSources (snd e) isLive)) l).
  { intros l. rewrite map_map. apply map_ext. intros [k ts]. reflexivity. }
  cbv zeta in Hs. destruct Hs as [[_ [[first [others [H0 Hm]]] _]] | [_ [Hm _]]].
  - rewrite Hm, <- E, H0. reflexivity.
  - rewrite Hm. apply E.
Qed.

(** When no kind is an inherited property name, the build succeeds and the
    manifest has exactly one stream per kind group: the stream labels are the
    kinds of the tracks, each once, and the sources of a stream are those of
    the tracks of its kind. *)
Lemma streams_per_kind :
  Forall (fun tr => inherited (kind_of tr) = false) tracks ->
  exists m log,
    build = Ok (m, log)
    /\ map content (streams m) = map fst (Object_entries (groups_of tracks))
    /\ NoDup (map content (streams m))
    /\ (forall k, In k (map content (streams m))
                  <-> exists tr, In tr tracks /\ kind_of tr = k)
    /\ (forall s, In s (streams m) ->
                  sources s
                  = tracksToPaellaSources (filter (has_kind (content s)) tracks) isLive).
Proof.
  intros Hok. pose proof (group_tracks_groups_of tracks Hok) as Hg.
  destruct (PaellaPlayer_manifest_returns t Date_getTime tracks title duration
              isLive captions startTime endTime previewImage _ Hg) as [m [log Hb]].
  exists m, log. split; [exact Hb|].
  pose proof (streams_of_entries m log _ Hb Hg) as Hs.
  assert (Hc : map content (streams m) = map fst (Object_entries (groups_of tracks))).
  { apply (f_equal (map fst)) in Hs. rewrite !map_map in Hs. exact Hs. }
  assert (Hp : Permutation (map content (streams m)) (kinds tracks)).
  { rewrite Hc, <- map_fst_groups_of. apply Permutation_map, Object_entries_Permutation. }
  split; [exact Hc|]. split; [|split].
  - apply (Permutation_NoDup (Permutation_sym Hp)), distinct_NoDup.
  - intros k. rewrite <- In_kinds. split; apply Permutation_in;
      [exact Hp | exact (Permutation_sym Hp)].
  - intros s Hin.
    assert (Hin' : In (content s, sources s)
                      (map (fun s => (content s, sources s)) (streams m))).
    { apply in_map_iff. now exists s. }
    rewrite Hs in Hin'. apply in_map_iff in Hin'. destruct Hin' as [e [He Hine]].
    apply (Permutation_in _ (Object_entries_Permutation _)) in Hine.
    apply In_groups_of in Hine. destruct Hine as [_ Hsnd].
    injection He as Hk Hsrc. rewrite <- Hsrc, Hsnd, Hk. reflexivity.
Qed.

End Streams.

Section StreamsPerKind.

Variable t : string -> string.
Variable Date_getTime : string -> number.

(** X1: streams and kinds.  The kind of a track is its flavor up to the first
    "/" (the whole flavor without one).  For tracks none of whose kinds is a
    property name inherited from [Object.prototype], the build succeeds and
    the manifest has exactly one stream per kind, labelled with it; the
    sources of a stream hold the progressive tracks of that kind under
    "mp4", and its segmented tracks under "hlsLive" for a live event and
    under "hls" otherwise, a key being present exactly when it has a
    track. *)
Theorem one_stream_per_kind
  (tracks : list Track) (title : string) (duration : number) (isLive : bool)
  (captions : list Caption) (startTime endTime : option string)
  (previewImage : option string) :
  Forall (fun tr => inherited (kind_of tr) = false) tracks ->
  exists m log,
    PaellaPlayer_manifest t Date_getTime tracks title duration isLive captions
                          startTime endTime previewImage = Ok (m, log)
    /\ NoDup (map content (streams m))
    /\ (forall k, In k (map content (streams m))
                  <-> exists tr, In tr tracks /\ kind_of tr = k)
    /\ (forall tr,
          (occurs "/" (flavor tr) = false -> kind_of tr = flavor tr)
          /\ (forall p r, flavor tr = (p ++ String "/" r)%string ->
                          occurs "/" p = false -> kind_of tr = p))
    /\ (forall s key srcs,
          In s (streams m) ->
          let group := filter (has_kind (content s)) tracks in
          In (key, srcs) (sources s)
          <-> (key = "mp4"%string /\ srcs = map trackToSource (mp4Tracks group)
               /\ mp4Tracks group <> [])
              \/ (key = (if isLive then "hlsLive" else "hls")%string
                  /\ srcs = map trackToSource (hlsTracks group)
                  /\ hlsTracks group <> [])).
Proof.
  intros Hok.
  destruct (streams_per_kind t Date_getTime tracks title duration isLive captions
              startTime endTime previewImage Hok)
    as [m [log [Hb [_ [Hnd [Hin Hsrc]]]]]].
  exists m, log. split; [exact Hb|]. split; [exact Hnd|]. split; [exact Hin|].
  split; [exact kind_of_flavor|].
  intros s key srcs Hs. cbv zeta. rewrite (Hsrc s Hs).
  apply tracksToPaellaSources_keys.
Qed.

End StreamsPerKind.

(** A camera recording and a segmented slide stream of a live event. *)
Lemma one_stream_per_kind_witness :
  exists m log,
    PaellaPlayer_manifest sample_t sample_getTime
      [sample_track "camera.mp4" "presenter/delivery";
       sample_track "slides.m3u8" "presentation/delivery"]
      "Lecture" (of_Z 60) true [] None None None = Ok (m, log)
    /\ map (fun s => (content s, map fst (sources s))) (streams m)
       = [("presenter", ["mp4"]); ("presentation", ["hlsLive"])]%string.
Proof.
  destruct (one_stream_per_kind sample_t sample_getTime
              [sample_track "camera.mp4" "presenter/delivery";
               sample_track "slides.m3u8" "presentation/delivery"]
              "Lecture" (of_Z 60) true [] None None None)
    as [m [log [Hb _]]].
  - repeat constructor.
  - exists m, log. split; [exact Hb|].
    injection Hb as <- <-. reflexivity.
Defined.

(** ** The main-audio role *)

Lemma stream_of_entry_no_role (live : bool) (l : list (string * list Track)) :
  Forall (fun s => role s = None) (map (stream_of_entry live) l).
Proof.
  apply Forall_map, Forall_forall. intros [k ts] _. reflexivity.
Qed.

Lemma has_property_presenter (tracks : list Track) :
  has_property "presenter" (groups_of tracks) = true
  <-> In "presenter"%string (kinds tracks).
Proof.
  unfold has_property. rewrite has_own_groups_of.
  change (inherited "presenter") with false. rewrite orb_false_r.
  apply existsb_eqb_In.
Qed.

Section MainAudio.

Variable t : string -> string.
Variable Date_getTime : string -> number.

(** C9, as the code has it.  For tracks none of whose kinds is a property
    name inherited from [Object.prototype], the build succeeds and its
    streams follow the [Object.entries] order of the kind groups (array-index
    kinds in ascending numeric order, then the other kinds in order of first
    appearance).  With more than one kind and no "presenter" kind, the first
    stream of that order, and no other, gets the role "mainAudio", and one
    diagnostic is written; with at most one kind or with a "presenter" kind,
    no stream gets a role and nothing is written.  The first stream is the
    group of the first track whenever no kind is an array index. *)
Theorem main_audio_first_stream
  (tracks : list Track) (title : string) (duration : number) (isLive : bool)
  (captions : list Caption) (startTime endTime : option string)
  (previewImage : option string) :
  Forall (fun tr => inherited (kind_of tr) = false) tracks ->
  exists m log,
    PaellaPlayer_manifest t Date_getTime tracks title duration isLive captions
                          startTime endTime previewImage = Ok (m, log)
    /\ map content (streams m) = map fst (Object_entries (groups_of tracks))
    /\ ((1 < List.length (kinds tracks))%nat /\ ~ In "presenter"%string (kinds tracks) ->
        (exists first others,
           streams m = first :: others
           /\ role first = Some "mainAudio"%string
           /\ Forall (fun s => role s = None) others)
        /\ log = [console_warn "Picking first stream as main audio source. Tracks: "
                               tracks])
    /\ ((List.length (kinds tracks) <= 1)%nat \/ In "presenter"%string (kinds tracks) ->
        Forall (fun s => role s = None) (streams m) /\ log = [])
    /\ (Forall (fun k => is_array_index k = false) (kinds tracks) ->
        forall first_track rest,
          tracks = first_track :: rest ->
          exists first others,
            streams m = first :: others /\ content first = kind_of first_track).
Proof.
  intros Hok.
  destruct (streams_per_kind t Date_getTime tracks title duration isLive captions
              startTime endTime previewImage Hok) as [m [log [Hb [Hc _]]]].
  exists m, log. split; [exact Hb|]. split; [exact Hc|].
  pose proof (group_tracks_groups_of tracks Hok) as Hg.
  apply PaellaPlayer_manifest_inv in Hb.
  destruct Hb as [o [Ho [_ [_ Hs]]]]. rewrite Hg in Ho. injection Ho as <-.
  cbv zeta in Hs.
  set (streams0 := map (stream_of_entry isLive) (Object_entries (groups_of tracks))) in *.
  assert (Hlen : List.length streams0 = List.length (kinds tracks)).
  { unfold streams0. rewrite length_map.
    rewrite (Permutation_length (Object_entries_Permutation (groups_of tracks))).
    unfold groups_of. apply length_map. }
  assert (Hnone : Forall (fun s => role s = None) streams0)
    by apply stream_of_entry_no_role.
  assert (Hcond : (1 <? List.length streams0)%nat
                  && negb (has_property "presenter" (groups_of tracks)) = true
                  <-> (1 < List.length (kinds tracks))%nat
                      /\ ~ In "presenter"%string (kinds tracks)).
  { rewrite andb_true_iff, Nat.ltb_lt, Hlen, negb_true_iff,
      <- not_true_iff_false, has_property_presenter. reflexivity. }
  split; [|split].
  - intros Hmulti. apply Hcond in Hmulti.
    destruct Hs as [[_ [[first [others [H0 Hm]]] Hlog]] | [Hfalse _]]; [|congruence].
    split; [|exact Hlog]. exists (with_role first "mainAudio"), others.
    split; [exact Hm|]. split; [reflexivity|].
    rewrite H0 in Hnone. now inversion Hnone.
  - intros Hsingle.
    destruct Hs as [[Htrue _] | [_ [Hm Hlog]]].
    + apply Hcond in Htrue. destruct Htrue as [H1 H2].
      destruct Hsingle as [Hle | Hin]; [lia | contradiction].
    + rewrite Hm. now split.
  - intros Hidx first_track rest Htracks.
    assert (Hentries : Object_entries (groups_of tracks) = groups_of tracks).
    { apply Object_entries_creation_order. unfold groups_of.
      apply Forall_map. simpl. exact Hidx. }
    assert (H0 : exists first others,
               streams0 = first :: others /\ content first = kind_of first_track).
    { unfold streams0. rewrite Hentries. subst tracks.
      unfold groups_of, kinds. simpl. eexists. eexists. split; reflexivity. }
    destruct H0 as [first [others [H0 Hfirst]]].
    destruct Hs as [[_ [[first' [others' [H0' Hm]]] _]] | [_ [Hm _]]].
    + rewrite H0 in H0'. injection H0' as <- <-.
      exists (with_role first "mainAudio"), others. now split.
    + exists first, others. rewrite Hm. now split.
Qed.

End MainAudio.

(** A presentation and a camera track, neither of kind "presenter". *)
Lemma main_audio_first_stream_witness :
  exists m log,
    PaellaPlayer_manifest sample_t sample_getTime
      [sample_track "slides.mp4" "presentation/delivery";
       sample_track "camera.mp4" "camera/delivery"]
      "Lecture" (of_Z 60) false [] None None None = Ok (m, log)
    /\ map (fun s => (content s, role s)) (streams m)
       = [("presentation", Some "mainAudio"); ("camera", None)]%string
    /\ List.length log = 1%nat.
Proof.
  destruct (main_audio_first_stream sample_t sample_getTime
              [sample_track "slides.mp4" "presentation/delivery";
               sample_track "camera.mp4" "camera/delivery"]
              "Lecture" (of_Z 60) false [] None None None)
    as [m [log [Hb _]]].
  - repeat constructor.
  - exists m, log. split; [exact Hb|].
    injection Hb as <- <-. split; reflexivity.
Defined.

(** C9, as the claim words it, fails: the stream that gets the role need not
    be the group of the first track.  With kinds "b" then "1", the entries
    start with the array-index kind "1". *)
Lemma main_audio_not_first_track :
  exists m log,
    PaellaPlayer_manifest sample_t sample_getTime
      [sample_track "first.mp4" "b/x"; sample_track "second.mp4" "1/x"]
      "Lecture" (of_Z 60) false [] None None None = Ok (m, log)
    /\ kind_of (sample_track "first.mp4" "b/x") = "b"%string
    /\ map (fun s => (content s, role s)) (streams m)
       = [("1", Some "mainAudio"); ("b", None)]%string.
Proof.
  eexists. eexists. split; [reflexivity|]. split; reflexivity.
Qed.

(** ** Inputs on which the core throws *)

(** X2: the build completes exactly when no kind is a property name
    inherited from [Object.prototype]; otherwise the grouping loop throws. *)
Theorem PaellaPlayer_manifest_completes
  (t : string -> string) (Date_getTime : string -> number)
  (tracks : list Track) (title : string) (duration : number) (isLive : bool)
  (captions : list Caption) (startTime endTime : option string)
  (previewImage : option string) :
  ((exists m log,
      PaellaPlayer_manifest t Date_getTime tracks title duration isLive captions
                            startTime endTime previewImage = Ok (m, log))
   <-> Forall (fun tr => inherited (kind_of tr) = false) tracks)
  /\ (PaellaPlayer_manifest t Date_getTime tracks title duration isLive captions
                            startTime endTime previewImage
      = Throw (TypeError "tracksByKind[kind].push is not a function")
      <-> Exists (fun tr => inherited (kind_of tr) = true) tracks).
Proof.
  assert (Hdec : Forall (fun tr => inherited (kind_of tr) = false) tracks
                 \/ Exists (fun tr => inherited (kind_of tr) = true) tracks).
  { destruct (Forall_Exists_dec (fun tr => inherited (kind_of tr) = false)
                (fun tr => bool_dec (inherited (kind_of tr)) false) tracks)
      as [Hall | Hex]; [now left | right].
    apply Exists_exists in Hex. destruct Hex as [tr [Hin Hne]].
    apply Exists_exists. exists tr. split; [exact Hin|].
    now destruct (inherited (kind_of tr)). }
  assert (Hok : Forall (fun tr => inherited (kind_of tr) = false) tracks ->
                exists m log,
                  PaellaPlayer_manifest t Date_getTime tracks title duration isLive
                    captions startTime endTime previewImage = Ok (m, log)).
  { intros Hall.
    exact (PaellaPlayer_manifest_returns _ _ _ _ _ _ _ _ _ _ _
             (group_tracks_groups_of tracks Hall)). }
  assert (Hthrow : Exists (fun tr => inherited (kind_of tr) = true) tracks ->
                   PaellaPlayer_manifest t Date_getTime tracks title duration isLive
                     captions startTime endTime previewImage
                   = Throw (TypeError "tracksByKind[kind].push is not a function")).
  { intros Hex. apply PaellaPlayer_manifest_throws.
    now apply group_tracks_inherited. }
  split; split.
  - intros [m [log Hb]]. destruct Hdec as [Hall | Hex]; [exact Hall|].
    rewrite (Hthrow Hex) in Hb. discriminate.
  - exact Hok.
  - intros Hb. destruct Hdec as [Hall | Hex]; [|exact Hex].
    destruct (Hok Hall) as [m [log Hm]]. rewrite Hm in Hb. discriminate.
  - exact Hthrow.
Qed.

(** C7 at a failing input: a track list with a track of flavor
    "constructor/x" (kind "constructor") makes the grouping loop throw, so
    no manifest and no stream for that kind results. *)
Theorem constructor_kind_throws
  (t : string -> string) (Date_getTime : string -> number)
  (title : string) (duration : number) (isLive : bool)
  (captions : list Caption) (startTime endTime : option string)
  (previewImage : option string) :
  kind_of {| uri := "a.mp4"; flavor := "constructor/x"; mimetype := None;
             resolution := None; isMaster := None |} = "constructor"%string
  /\ PaellaPlayer_manifest t Date_getTime
       [{| uri := "a.mp4"; flavor := "constructor/x"; mimetype := None;
           resolution := None; isMaster := None |}]
       title duration isLive captions startTime endTime previewImage
     = Throw (TypeError "tracksByKind[kind].push is not a function").
Proof.
  split; [reflexivity|].
  apply PaellaPlayer_manifest_throws, group_tracks_inherited.
  constructor. reflexivity.
Qed.

(** C2: an event without tracks builds a manifest without streams and
    without diagnostics; yet the aspect-ratio computation of [InlinePlayer]
    throws on it, reading [tracks[0].resolution] of an empty list. *)
Theorem zero_tracks_aspect_ratio_throws :
  (forall (t : string -> string) (Date_getTime : string -> number)
          (event : PlayerEvent),
      tracks (syncedData event) = [] ->
      exists m,
        LoadPaellaPlayer_manifest t Date_getTime event = Ok (m, [])
        /\ streams m = [])
  /\ getPlayerAspectRatio []
     = Throw (TypeError "Cannot read properties of undefined (reading 'resolution')")
  /\ (forall (event : PlayerEvent) (info : EventTimeInfo),
        tracks (syncedData event) = [] ->
        InlinePlayer event info
        = Throw (TypeError "Cannot read properties of undefined (reading 'resolution')")).
Proof.
  split; [|split].
  - intros t Date_getTime event H. unfold LoadPaellaPlayer_manifest. rewrite H.
    eexists. split; reflexivity.
  - reflexivity.
  - intros event info H. unfold InlinePlayer. rewrite H. reflexivity.
Qed.

(** * Further properties *)

(** ** No track is lost or doubled *)

Lemma sources_flat (tracks : list Track) (live : bool) :
  flat_map snd (tracksToPaellaSources tracks live)
  = map trackToSource (mp4Tracks tracks) ++ map trackToSource (hlsTracks tracks).
Proof.
  unfold tracksToPaellaSources. rewrite flat_map_app.
  destruct (mp4Tracks tracks) as [|a ms]; destruct (hlsTracks tracks) as [|b hs];
    simpl; now rewrite ?app_nil_r.
Qed.

Lemma sources_Permutation (tracks : list Track) (live : bool) :
  Permutation (flat_map snd (tracksToPaellaSources tracks live))
              (map trackToSource tracks).
Proof.
  rewrite sources_flat, <- map_app. apply Permutation_map.
  unfold hlsTracks, mp4Tracks.
  apply Permutation_trans
    with (filter (fun t => negb (isHlsTrack t)) tracks ++ filter isHlsTrack tracks).
  - apply Permutation_app_head, sort_Permutation.
  - apply Permutation_trans
      with (filter isHlsTrack tracks ++ filter (fun t => negb (isHlsTrack t)) tracks).
    + apply Permutation_app_comm.
    + apply filter_split_Permutation.
Qed.

(** X5: [tracksToPaellaSources] puts every track into exactly one list: its
    source descriptors, taken together, are those of the input tracks, each
    once; no key holds an empty list; and no key occurs twice. *)
Theorem sources_hold_every_track (tracks : list Track) (live : bool) :
  Permutation (flat_map snd (tracksToPaellaSources tracks live))
              (map trackToSource tracks)
  /\ List.length (flat_map snd (tracksToPaellaSources tracks live))
     = List.length tracks
  /\ Forall (fun entry => snd entry <> []) (tracksToPaellaSources tracks live)
  /\ NoDup (map fst (tracksToPaellaSources tracks live)).
Proof.
  split; [apply sources_Permutation|]. split; [|split].
  - rewrite (Permutation_length (sources_Permutation tracks live)). apply length_map.
  - unfold tracksToPaellaSources. apply Forall_app. split.
    + destruct (mp4Tracks tracks); simpl; repeat constructor. discriminate.
    + destruct (hlsTracks tracks); simpl; repeat constructor. discriminate.
  - unfold tracksToPaellaSources, hlsKey.
    destruct (mp4Tracks tracks), (hlsTracks tracks), live; simpl;
      repeat constructor; simpl; intuition discriminate.
Qed.

Lemma flat_map_ext_in {A B : Type} (f g : A -> list B) (l : list A) :
  (forall x, In x l -> f x = g x) -> flat_map f l = flat_map g l.
Proof.
  induction l as [|x l IH]; simpl; intros H; [reflexivity|].
  rewrite (H x (or_introl eq_refl)), IH; [reflexivity|].
  intros y Hy. apply H. now right.
Qed.

Lemma flat_map_Permutation_pointwise {A B : Type} (f g : A -> list B) (l : list A) :
  (forall x, In x l -> Permutation (f x) (g x)) ->
  Permutation (flat_map f l) (flat_map g l).
Proof.
  induction l as [|x l IH]; simpl; intros H; [apply Permutation_refl|].
  apply Permutation_app; [apply H; now left|].
  apply IH. intros y Hy. apply H. now right.
Qed.

Lemma filter_filter_sub {A : Type} (p q : A -> bool) (l : list A) :
  (forall x, p x = true -> q x = true) -> filter p (filter q l) = filter p l.
Proof.
  intros H. induction l as [|x l IH]; simpl; [reflexivity|].
  destruct (q x) eqn:Hq; simpl.
  - now rewrite IH.
  - destruct (p x) eqn:Hp; [|exact IH]. apply H in Hp. congruence.
Qed.

(** Grouping by a key loses nothing: the groups of the distinct keys, put
    end to end, are a rearrangement of the list. *)
Lemma groups_Permutation {A : Type} (key : A -> string) (ks : list string) :
  forall l : list A,
    NoDup ks -> (forall x, In x l -> In (key x) ks) ->
    Permutation (flat_map (fun k => filter (fun x => String.eqb (key x) k) l) ks) l.
Proof.
  induction ks as [|k ks IH]; intros l Hnd Hin; simpl.
  - destruct l as [|x l]; [apply Permutation_refl|].
    destruct (Hin x (or_introl eq_refl)).
  - inversion Hnd as [|? ? Hk Hnd']; subst.
    set (others := filter (fun x => negb (String.eqb (key x) k)) l).
    apply Permutation_trans
      with (filter (fun x => String.eqb (key x) k) l ++ others);
      [|apply filter_split_Permutation].
    apply Permutation_app_head.
    rewrite (flat_map_ext_in _
               (fun k' => filter (fun x => String.eqb (key x) k') others)).
    + apply IH; [exact Hnd'|]. intros x Hx. unfold others in Hx.
      apply filter_In in Hx. destruct Hx as [Hx Hne].
      destruct (Hin x Hx) as [E|Hin']; [|exact Hin'].
      rewrite <- E, String.eqb_refl in Hne. discriminate.
    + intros k' Hk'. unfold others. symmetry. apply filter_filter_sub.
      intros x Hx. apply String.eqb_eq in Hx. subst k'.
      apply negb_true_iff, String.eqb_neq. intros E. now subst.
Qed.

Lemma groups_of_Permutation (tracks : list Track) :
  Permutation (flat_map snd (groups_of tracks)) tracks.
Proof.
  unfold groups_of. rewrite flat_map_concat_map, map_map. simpl.
  rewrite <- flat_map_concat_map.
  apply (groups_Permutation kind_of (kinds tracks) tracks).
  - apply distinct_NoDup.
  - intros x Hx. apply In_kinds. now exists x.
Qed.

Lemma group_tracks_Ok (tracks : list Track) (o : Obj (list Track)) :
  group_tracks tracks = Ok o -> o = groups_of tracks.
Proof.
  intros Hg.
  destruct (Forall_Exists_dec (fun tr => inherited (kind_of tr) = false)
              (fun tr => bool_dec (inherited (kind_of tr)) false) tracks)
    as [Hall | Hex].
  - rewrite (group_tracks_groups_of tracks Hall) in Hg. now injection Hg.
  - assert (Hex' : Exists (fun tr => inherited (kind_of tr) = true) tracks).
    { apply Exists_exists in Hex. destruct Hex as [tr [Hin Hne]].
      apply Exists_exists. exists tr. split; [exact Hin|].
      now destruct (inherited (kind_of tr)). }
    rewrite (group_tracks_inherited tracks Hex') in Hg. discriminate.
Qed.

Section EveryTrack.

Variable t : string -> string.
Variable Date_getTime : string -> number.

(** X6: a manifest that is built holds every input track exactly once: the
    source descriptors of all its streams, taken together, are those of the
    input tracks, none missing and none doubled. *)
Theorem manifest_holds_every_track
  (tracks : list Track) (title : string) (duration : number) (isLive : bool)
  (captions : list Caption) (startTime endTime : option string)
  (previewImage : option string) (m : Manifest) (log : list Diagnostic) :
  PaellaPlayer_manifest t Date_getTime tracks title duration isLive captions
                        startTime endTime previewImage = Ok (m, log) ->
  Permutation (all_sources m) (map trackToSource tracks)
  /\ Permutation (map src (all_sources m)) (map uri tracks)
  /\ List.length (all_sources m) = List.length tracks.
Proof.
  intros Hb.
  destruct (PaellaPlayer_manifest_inv _ _ _ _ _ _ _ _ _ _ _ _ Hb) as [o [Hg _]].
  pose proof (streams_of_entries _ _ _ _ _ _ _ _ _ _ _ _ _ Hb Hg) as Hs.
  apply group_tracks_Ok in Hg. subst o.
  assert (Hall : Permutation (all_sources m) (map trackToSource tracks)).
  { unfold all_sources.
    replace (flat_map (fun s => flat_map snd (sources s)) (streams m))
      with (flat_map (fun pr : string * Sources => flat_map snd (snd pr))
                     (map (fun s => (content s, sources s)) (streams m)))
      by (rewrite !flat_map_concat_map, map_map; reflexivity).
    rewrite Hs.
    replace (flat_map (fun pr : string * Sources => flat_map snd (snd pr))
               (map (fun e => (fst e, tracksToPaellaSources (snd e) isLive))
                    (Object_entries (groups_of tracks))))
      with (flat_map (fun e : string * list Track =>
                        flat_map snd (tracksToPaellaSources (snd e) isLive))
                     (Object_entries (groups_of tracks)))
      by (rewrite !flat_map_concat_map, map_map; reflexivity).
    apply Permutation_trans
      with (flat_map (fun e : string * list Track => map trackToSource (snd e))
                     (Object_entries (groups_of tracks))).
    { apply flat_map_Permutation_pointwise. intros e _. apply sources_Permutation. }
    apply Permutation_trans
      with (flat_map (fun e : string * list Track => map trackToSource (snd e))
                     (groups_of tracks)).
    { apply Permutation_flat_map, Object_entries_Permutation. }
    replace (flat_map (fun e : string * list Track => map trackToSource (snd e))
                      (groups_of tracks))
      with (map trackToSource (flat_map snd (groups_of tracks))).
    { apply Permutation_map, groups_of_Permutation. }
    rewrite !flat_map_concat_map, concat_map, map_map. reflexivity. }
  split; [exact Hall|]. split.
  - apply (Permutation_map src) in Hall. rewrite map_map in Hall. exact Hall.
  - rewrite (Permutation_length Hall). apply length_map.
Qed.

End EveryTrack.

(** Two cameras and a segmented slide stream. *)
Lemma manifest_holds_every_track_witness :
  exists m log,
    PaellaPlayer_manifest sample_t sample_getTime
      [sample_track "left.mp4" "presenter/left";
       sample_track "slides.m3u8" "presentation/delivery";
       sample_track "right.mp4" "presenter/right"]
      "Lecture" (of_Z 60) false [] None None None = Ok (m, log)
    /\ Permutation (map src (all_sources m))
                   ["left.mp4"; "slides.m3u8"; "right.mp4"]%string.
Proof.
  eexists. eexists. split; [reflexivity|].
  exact (proj1 (proj2 (manifest_holds_every_track sample_t sample_getTime
                         [sample_track "left.mp4" "presenter/left";
                          sample_track "slides.m3u8" "presentation/delivery";
                          sample_track "right.mp4" "presenter/right"]
                         "Lecture"%string (of_Z 60) false [] None None None
                         _ _ eq_refl))).
Defined.

(** ** The source descriptor of a track *)

(** Every track has its descriptor under the key of its class. *)
Lemma track_descriptor_emitted (tracks : list Track) (live : bool) (track : Track) :
  In track tracks ->
  exists srcs,
    In ((if isHlsTrack track then hlsKey live else "mp4"%string), srcs)
       (tracksToPaellaSources tracks live)
    /\ In (trackToSource track) srcs.
Proof.
  intros Hin. unfold tracksToPaellaSources. destruct (isHlsTrack track) eqn:Hc.
  - assert (Hh : In track (hlsTracks tracks)).
    { unfold hlsTracks.
      apply (Permutation_in _ (Permutation_sym (sort_Permutation _ _))).
      apply filter_In. now split. }
    exists (map trackToSource (hlsTracks tracks)). split; [|now apply in_map].
    apply in_or_app. right.
    destruct (hlsTracks tracks) as [|x l]; [destruct Hh | now left].
  - assert (Hp : In track (mp4Tracks tracks)).
    { unfold mp4Tracks. apply filter_In. split; [exact Hin | now rewrite Hc]. }
    exists (map trackToSource (mp4Tracks tracks)). split; [|now apply in_map].
    apply in_or_app. left.
    destruct (mp4Tracks tracks) as [|x l]; [destruct Hp | now left].
Qed.

(** Every descriptor emitted is the descriptor of a track. *)
Lemma descriptor_of_track (tracks : list Track) (live : bool)
  (key : string) (srcs : list Source) (s : Source) :
  In (key, srcs) (tracksToPaellaSources tracks live) -> In s srcs ->
  exists track, In track tracks /\ s = trackToSource track.
Proof.
  intros Hentry Hs.
  assert (Hflat : In s (flat_map snd (tracksToPaellaSources tracks live))).
  { apply in_flat_map. now exists (key, srcs). }
  apply (Permutation_in _ (sources_Permutation tracks live)) in Hflat.
  apply in_map_iff in Hflat. destruct Hflat as [track [E Hin]]. now exists track.
Qed.

Section TrackDescriptors.

Variable t : string -> string.
Variable Date_getTime : string -> number.

(** The descriptors of a manifest are those of the tracks, each once. *)
Lemma all_sources_Permutation
  (tracks : list Track) (title : string) (duration : number) (isLive : bool)
  (captions : list Caption) (startTime endTime : option string)
  (previewImage : option string) (m : Manifest) (log : list Diagnostic) :
  PaellaPlayer_manifest t Date_getTime tracks title duration isLive captions
                        startTime endTime previewImage = Ok (m, log) ->
  Permutation (all_sources m) (map trackToSource tracks).
Proof.
  intros Hb.
  destruct (PaellaPlayer_manifest_inv _ _ _ _ _ _ _ _ _ _ _ _ Hb) as [o [Hg _]].
  pose proof (streams_of_entries _ _ _ _ _ _ _ _ _ _ _ _ _ Hb Hg) as Hs.
  apply group_tracks_Ok in Hg. subst o. unfold all_sources.
  replace (flat_map (fun s => flat_map snd (sources s)) (streams m))
    with (flat_map (fun pr : string * Sources => flat_map snd (snd pr))
                   (map (fun s => (content s, sources s)) (streams m)))
    by (rewrite !flat_map_concat_map, map_map; reflexivity).
  rewrite Hs.
  replace (flat_map (fun pr : string * Sources => flat_map snd (snd pr))
             (map (fun e => (fst e, tracksToPaellaSources (snd e) isLive))
                  (Object_entries (groups_of tracks))))
    with (flat_map (fun e : string * list Track =>
                      flat_map snd (tracksToPaellaSources (snd e) isLive))
                   (Object_entries (groups_of tracks)))
    by (rewrite !flat_map_concat_map, map_map; reflexivity).
  apply Permutation_trans
    with (flat_map (fun e : string * list Track => map trackToSource (snd e))
                   (Object_entries (groups_of tracks))).
  { apply flat_map_Permutation_pointwise. intros e _. apply sources_Permutation. }
  apply Permutation_trans
    with (flat_map (fun e : string * list Track => map trackToSource (snd e))
                   (groups_of tracks)).
  { apply Permutation_flat_map, Object_entries_Permutation. }
  replace (flat_map (fun e : string * list Track => map trackToSource (snd e))
                    (groups_of tracks))
    with (map trackToSource (flat_map snd (groups_of tracks))).
  { apply Permutation_map, groups_of_Permutation. }
  rewrite !flat_map_concat_map, concat_map, map_map. reflexivity.
Qed.

End TrackDescriptors.

(** C10: every track is emitted, with the MIME type "video/mp4" whatever it
    declares.  [tracksToPaellaSources] puts, for every track of its input, a
    descriptor under the key of the track's class ("mp4" for a progressive
    track, "hls" or "hlsLive" for a segmented one) that carries the track's
    URI and the MIME type "video/mp4", and width 0 and height 0 when the
    track's resolution is [null]; and it emits no descriptor with another
    MIME type or of no track.  The same holds of every manifest that is
    built: the descriptors of its streams are those of the input tracks, one
    for each. *)
Theorem source_descriptor_fixed_mimetype :
  (forall (tracks : list Track) (live : bool) (track : Track),
      In track tracks ->
      exists srcs s,
        In ((if isHlsTrack track then hlsKey live else "mp4"%string), srcs)
           (tracksToPaellaSources tracks live)
        /\ In s srcs
        /\ src s = uri track
        /\ source_mimetype s = "video/mp4"%string
        /\ (resolution track = None ->
            res_w s = Some (of_Z 0) /\ res_h s = Some (of_Z 0)))
  /\ (forall (tracks : list Track) (live : bool)
             (key : string) (srcs : list Source) (s : Source),
        In (key, srcs) (tracksToPaellaSources tracks live) -> In s srcs ->
        source_mimetype s = "video/mp4"%string
        /\ exists track, In track tracks /\ src s = uri track)
  /\ (forall (t : string -> string) (Date_getTime : string -> number)
             (tracks : list Track) (title : string) (duration : number)
             (isLive : bool) (captions : list Caption)
             (startTime endTime : option string) (previewImage : option string)
             (m : Manifest) (log : list Diagnostic),
        PaellaPlayer_manifest t Date_getTime tracks title duration isLive captions
                              startTime endTime previewImage = Ok (m, log) ->
        (forall track, In track tracks ->
           exists stream key srcs s,
             In stream (streams m) /\ In (key, srcs) (sources stream) /\ In s srcs
             /\ src s = uri track
             /\ source_mimetype s = "video/mp4"%string
             /\ (resolution track = None ->
                 res_w s = Some (of_Z 0) /\ res_h s = Some (of_Z 0)))
        /\ (forall stream key srcs s,
              In stream (streams m) -> In (key, srcs) (sources stream) -> In s srcs ->
              source_mimetype s = "video/mp4"%string
              /\ exists track, In track tracks /\ src s = uri track)
        /\ List.length (all_sources m) = List.length tracks).
Proof.
  split; [|split].
  - intros tracks live track Hin.
    destruct (track_descriptor_emitted tracks live track Hin) as [srcs [He Hs]].
    exists srcs, (trackToSource track).
    split; [exact He|]. split; [exact Hs|]. split; [reflexivity|].
    split; [reflexivity|]. unfold trackToSource. intros ->. now split.
  - intros tracks live key srcs s He Hs.
    destruct (descriptor_of_track tracks live key srcs s He Hs) as [track [Hin ->]].
    split; [reflexivity|]. now exists track.
  - intros t Date_getTime tracks title duration isLive captions startTime endTime
           previewImage m log Hb.
    pose proof (all_sources_Permutation _ _ _ _ _ _ _ _ _ _ _ _ Hb) as Hall.
    split; [|split].
    + intros track Hin.
      assert (Hs : In (trackToSource track) (all_sources m)).
      { apply (Permutation_in _ (Permutation_sym Hall)). now apply in_map. }
      unfold all_sources in Hs. apply in_flat_map in Hs.
      destruct Hs as [stream [Hstream Hs]]. apply in_flat_map in Hs.
      destruct Hs as [[key srcs] [Hentry Hs]].
      exists stream, key, srcs, (trackToSource track).
      split; [exact Hstream|]. split; [exact Hentry|]. split; [exact Hs|].
      split; [reflexivity|]. split; [reflexivity|].
      unfold trackToSource. intros ->. now split.
    + intros stream key srcs s Hstream Hentry Hs.
      assert (Hin : In s (all_sources m)).
      { unfold all_sources. apply in_flat_map. exists stream. split; [exact Hstream|].
        apply in_flat_map. now exists (key, srcs). }
      apply (Permutation_in _ Hall) in Hin. apply in_map_iff in Hin.
      destruct Hin as [track [<- Hin]]. split; [reflexivity|]. now exists track.
    + rewrite (Permutation_length Hall). apply length_map.
Qed.

(** A segmented track that declares its own MIME type and no resolution. *)
Lemma source_descriptor_fixed_mimetype_witness :
  exists m log,
    PaellaPlayer_manifest sample_t sample_getTime
      [{| uri := "index.m3u8"; flavor := "presenter/delivery";
          mimetype := Some "application/x-mpegURL"%string;
          resolution := None; isMaster := Some true |}]
      "Lecture" (of_Z 60) false [] None None None = Ok (m, log)
    /\ exists stream key srcs s,
         In stream (streams m) /\ In (key, srcs) (sources stream) /\ In s srcs
         /\ src s = "index.m3u8"%string
         /\ source_mimetype s = "video/mp4"%string
         /\ res_w s = Some (of_Z 0) /\ res_h s = Some (of_Z 0).
Proof.
  eexists. eexists. split; [reflexivity|].
  destruct (proj1 (proj2 (proj2 source_descriptor_fixed_mimetype)
                     sample_t sample_getTime
                     [{| uri := "index.m3u8"; flavor := "presenter/delivery";
                         mimetype := Some "application/x-mpegURL"%string;
                         resolution := None; isMaster := Some true |}]
                     "Lecture"%string (of_Z 60) false [] None None None _ _ eq_refl)
                  {| uri := "index.m3u8"; flavor := "presenter/delivery";
                     mimetype := Some "application/x-mpegURL"%string;
                     resolution := None; isMaster := Some true |}
                  (or_introl eq_refl))
    as [stream [key [srcs [s [H1 [H2 [H3 [H4 [H5 H6]]]]]]]]].
  exists stream, key, srcs, s.
  split; [exact H1|]. split; [exact H2|]. split; [exact H3|]. split; [exact H4|].
  split; [exact H5|]. exact (H6 eq_refl).
Defined.

(** ** Caption labels tell the captions apart *)

Lemma all_digits_no_occurrence (c : ascii) (s : string) :
  is_digit c = false -> all_digits s = true -> occurs c s = false.
Proof.
  intros Hc. induction s as [|x s IH]; simpl; intros H; [reflexivity|].
  apply andb_true_iff in H. destruct H as [Hx Hs]. rewrite (IH Hs), orb_false_r.
  destruct (Ascii.eqb_spec x c) as [->|_]; [congruence | reflexivity].
Qed.

Lemma string_of_uint_digits (d : Decimal.uint) :
  all_digits (NilEmpty.string_of_uint d) = true.
Proof. induction d; simpl; auto. Qed.

Lemma string_of_nat_digits (n : nat) : all_digits (string_of_nat n) = true.
Proof.
  unfold string_of_nat, NilZero.string_of_uint.
  destruct (Nat.to_uint n); try reflexivity; apply string_of_uint_digits.
Qed.

(** The decimal text of a number can be read back. *)
Lemma string_of_nat_inj (n m : nat) : string_of_nat n = string_of_nat m -> n = m.
Proof.
  assert (Hnil : forall k, Nat.to_uint k <> Decimal.Nil).
  { intros k E. pose proof (DecimalNat.Unsigned.of_to k) as H. rewrite E in H.
    simpl in H. subst k. discriminate E. }
  unfold string_of_nat. intros H.
  apply (f_equal NilZero.uint_of_string) in H.
  rewrite !NilZero.usu in H by apply Hnil.
  injection H as H. now apply DecimalNat.Unsigned.to_uint_inj.
Qed.

Lemma after_last_none (c : ascii) (s : string) :
  occurs c s = false -> after_last c s = None.
Proof.
  induction s as [|x s IH]; simpl; intros H; [reflexivity|].
  apply orb_false_iff in H. destruct H as [Hx Hs]. now rewrite (IH Hs), Hx.
Qed.

Lemma after_last_append (c : ascii) (a d : string) :
  occurs c d = false -> after_last c (a ++ String c d) = Some d.
Proof.
  intros Hd. induction a as [|x a IH]; simpl.
  - now rewrite (after_last_none c d Hd), Ascii.eqb_refl.
  - now rewrite IH.
Qed.

Lemma append_last_inj (a b : string) (c : ascii) :
  (a ++ String c EmptyString)%string = (b ++ String c EmptyString)%string -> a = b.
Proof.
  revert b. induction a as [|x a IH]; intros [|y b] H; simpl in H.
  - reflexivity.
  - injection H as _ H. destruct b; discriminate.
  - injection H as _ H. destruct a; discriminate.
  - injection H as -> H. f_equal. now apply IH.
Qed.

Lemma occurs_append (c : ascii) (a b : string) :
  occurs c (a ++ b) = occurs c a || occurs c b.
Proof.
  induction a as [|x a IH]; simpl; [reflexivity|].
  now rewrite IH, orb_assoc.
Qed.

Lemma In_map_from {A B : Type} (f : A -> nat -> B) (l : list A) :
  forall (k : nat) (z : B),
    In z (map_from f k l) -> exists x i, (k <= i)%nat /\ In x l /\ z = f x i.
Proof.
  induction l as [|y l IH]; intros k z H; simpl in H; [contradiction|].
  destruct H as [<-|H].
  - exists y, k. repeat split; [lia | now left].
  - destruct (IH (S k) z H) as [x [i [Hi [Hx Hz]]]].
    exists x, i. repeat split; [lia | now right | exact Hz].
Qed.

Lemma NoDup_map_from {A B : Type} (f : A -> nat -> B) (l : list A) :
  (forall x y i j, f x i = f y j -> i = j) ->
  forall k, NoDup (map_from f k l).
Proof.
  intros Hinj. induction l as [|x l IH]; intros k; simpl; constructor.
  - intros Hin. apply In_map_from in Hin.
    destruct Hin as [y [i [Hi [_ E]]]]. apply Hinj in E. lia.
  - apply IH.
Qed.

Lemma map_map_from {A B C : Type} (g : B -> C) (f : A -> nat -> B) (l : list A) :
  forall k, map g (map_from f k l) = map_from (fun x i => g (f x i)) k l.
Proof.
  induction l as [|x l IH]; intros k; simpl; [reflexivity | now rewrite IH].
Qed.

Section CaptionLabels.

Variable t : string -> string.
Variable Date_getTime : string -> number.

(** With several captions, the index can be read back from a label. *)
Lemma caption_text_index (count : nat) (lang : option string) (index : nat) :
  (1 < count)%nat ->
  after_last "[" (caption_text t count lang index)
  = Some (string_of_nat (index + 1) ++ "]")%string.
Proof.
  intros Hcount. apply Nat.ltb_lt in Hcount. unfold caption_text. rewrite Hcount.
  set (mid := if truthy lang
              then match lang with
                   | Some l => (" (" ++ l ++ ")")%string
                   | None => EmptyString
                   end
              else EmptyString).
  replace (t "video.caption" ++ mid ++ " [" ++ string_of_nat (index + 1) ++ "]")%string
    with ((t "video.caption" ++ mid ++ " ")
          ++ String "[" (string_of_nat (index + 1) ++ "]"))%string
    by (rewrite !append_assoc; reflexivity).
  apply after_last_append. rewrite occurs_append. simpl.
  rewrite orb_false_r. apply all_digits_no_occurrence; [reflexivity|].
  apply string_of_nat_digits.
Qed.

(** X7: the labels of the captions of a manifest are pairwise different,
    whatever the languages are: with several captions the index suffix tells
    them apart. *)
Theorem caption_labels_distinct
  (tracks : list Track) (title : string) (duration : number) (isLive : bool)
  (captions : list Caption) (startTime endTime : option string)
  (previewImage : option string) (m : Manifest) (log : list Diagnostic) :
  PaellaPlayer_manifest t Date_getTime tracks title duration isLive captions
                        startTime endTime previewImage = Ok (m, log) ->
  NoDup (map text (manifest_captions m)).
Proof.
  intros Hb.
  destruct (PaellaPlayer_manifest_inv _ _ _ _ _ _ _ _ _ _ _ _ Hb)
    as [o [_ [_ [Hcaps _]]]].
  rewrite Hcaps. unfold map_indexed. rewrite map_map_from. simpl.
  destruct (Nat.ltb_spec 1 (List.length captions)) as [Hmany | Hfew].
  - apply NoDup_map_from. intros x y i j E.
    apply (f_equal (after_last "[")) in E.
    rewrite !caption_text_index in E by exact Hmany.
    injection E as E. apply append_last_inj, string_of_nat_inj in E. lia.
  - destruct captions as [|c [|c' rest]]; simpl in *;
      [constructor | repeat constructor; intros [] | lia].
Qed.

End CaptionLabels.

(** Two captions in the same language. *)
Lemma caption_labels_distinct_witness :
  exists m log,
    PaellaPlayer_manifest sample_t sample_getTime
      [sample_track "a.mp4" "presenter/delivery"] "Lecture" (of_Z 60) false
      [{| caption_uri := "one.vtt"; caption_lang := Some "en"%string |};
       {| caption_uri := "two.vtt"; caption_lang := Some "en"%string |}]
      None None None = Ok (m, log)
    /\ NoDup (map text (manifest_captions m)).
Proof.
  eexists. eexists. split; [reflexivity|].
  exact (caption_labels_distinct sample_t sample_getTime
           [sample_track "a.mp4" "presenter/delivery"] "Lecture"%string
           (of_Z 60) false
           [{| caption_uri := "one.vtt"; caption_lang := Some "en"%string |};
            {| caption_uri := "two.vtt"; caption_lang := Some "en"%string |}]
           None None None _ _ eq_refl).
Defined.

(** ** The duration handed to the engine is never 0 *)

Lemma fixedDuration_not_zero (Date_getTime : string -> number)
  (duration : number) (startTime endTime : option string) :
  is_zero (fixedDuration Date_getTime duration startTime endTime) = false.
Proof.
  unfold fixedDuration.
  match goal with
  | |- is_zero (if is_zero ?x then _ else _) = false =>
      destruct (is_zero x) eqn:E; [reflexivity | exact E]
  end.
Qed.

(** X8: whatever the nominal duration and the timestamps are (a zero
    duration, equal timestamps, a missing or unreadable timestamp), the
    resolved duration is not 0, and so is the duration of every manifest that
    is built; a nominal duration that is NaN, or a timestamp that is no date,
    gives NaN, never 0. *)
Theorem manifest_duration_not_zero :
  (forall (Date_getTime : string -> number) (duration : number)
          (startTime endTime : option string),
      is_zero (fixedDuration Date_getTime duration startTime endTime) = false)
  /\ (forall (t : string -> string) (Date_getTime : string -> number)
             (tracks : list Track) (title : string) (duration : number)
             (isLive : bool) (captions : list Caption)
             (startTime endTime : option string) (previewImage : option string)
             (m : Manifest) (log : list Diagnostic),
        PaellaPlayer_manifest t Date_getTime tracks title duration isLive captions
                              startTime endTime previewImage = Ok (m, log) ->
        is_zero (metadata_duration (metadata m)) = false)
  /\ (forall (Date_getTime : string -> number) (startTime endTime : option string),
        fixedDuration Date_getTime NaN startTime endTime = NaN)
  /\ (forall (Date_getTime : string -> number) (s e : string),
        s <> EmptyString -> e <> EmptyString ->
        Date_getTime s = NaN \/ Date_getTime e = NaN ->
        fixedDuration Date_getTime (of_Z 0) (Some s) (Some e) = NaN).
Proof.
  split; [exact fixedDuration_not_zero|]. split; [|split].
  - intros t Date_getTime tracks title duration isLive captions startTime endTime
           previewImage m log Hb.
    destruct (PaellaPlayer_manifest_inv _ _ _ _ _ _ _ _ _ _ _ _ Hb)
      as [o [_ [Hmeta _]]].
    rewrite Hmeta. apply fixedDuration_not_zero.
  - reflexivity.
  - intros Date_getTime s e Hs He Hnan. unfold fixedDuration.
    rewrite (truthy_some s Hs), (truthy_some e He). simpl.
    destruct Hnan as [-> | ->]; [destruct (Date_getTime e) | ]; reflexivity.
Qed.

(** ** The start offset of the page address *)

Lemma timeStringToSeconds_nonneg (str : string) : not_negative (timeStringToSeconds str).
Proof.
  destruct (optional_group "h" str) as [h s1] eqn:Eh.
  destruct (optional_group "m" s1) as [m s2] eqn:Em.
  destruct (optional_group "s" s2) as [s s3] eqn:Es.
  destruct (optional_group_split _ _ _ _ Eh) as [Hh _].
  destruct (optional_group_split _ _ _ _ Em) as [Hm _].
  destruct (optional_group_split _ _ _ _ Es) as [Hs _].
  rewrite (timeStringToSeconds_captures _ _ _ _ _ _ _ Eh Em Es).
  repeat apply plus_not_negative; apply capture_seconds_not_negative;
    try assumption; repeat constructor; lia.
Qed.

(** X9: once the player is loaded, the handler first reports it as loaded;
    it seeks at most once, exactly when the page address has a non-empty [t]
    parameter, to the offset [timeStringToSeconds] reads from it; and that
    offset is never negative (0 when the parameter holds no group,
    [Infinity] when a count is too large for a double). *)
Theorem playerLoaded_seek (time : option string) :
  (exists seeks, playerLoaded time = setPlayerIsLoaded true :: seeks
                 /\ (List.length seeks <= 1)%nat)
  /\ (forall seconds,
        In (setCurrentTime seconds) (playerLoaded time)
        <-> exists s, time = Some s /\ s <> EmptyString
                      /\ seconds = timeStringToSeconds s)
  /\ (forall seconds, In (setCurrentTime seconds) (playerLoaded time) ->
                      not_negative seconds)
  /\ (forall s, not_negative (timeStringToSeconds s))
  /\ (forall s, time = Some s -> s <> EmptyString -> begins_with_group s = false ->
                playerLoaded time = [setPlayerIsLoaded true; setCurrentTime (Finite 0)]).
Proof.
  assert (Hseek : forall seconds,
             In (setCurrentTime seconds) (playerLoaded time)
             <-> exists s, time = Some s /\ s <> EmptyString
                           /\ seconds = timeStringToSeconds s).
  { intros seconds. unfold playerLoaded. destruct time as [[|c s]|]; simpl.
    - split.
      + intros [H|[]]. discriminate.
      + intros [s [E [Hne _]]]. injection E as <-. now contradiction Hne.
    - split.
      + intros [H|[H|[]]]; [discriminate|]. injection H as <-.
        exists (String c s). repeat split. discriminate.
      + intros [s' [E [_ ->]]]. injection E as <-. right. now left.
    - split.
      + intros [H|[]]. discriminate.
      + intros [s [E _]]. discriminate. }
  split; [|split; [exact Hseek|split; [|split]]].
  - unfold playerLoaded. eexists. split; [reflexivity|].
    destruct time as [[|c s]|]; simpl; lia.
  - intros seconds H. apply Hseek in H. destruct H as [s [_ [_ ->]]].
    apply timeStringToSeconds_nonneg.
  - exact timeStringToSeconds_nonneg.
  - intros s -> Hs Hgroup. unfold playerLoaded. rewrite (truthy_some s Hs).
    now rewrite (timeStringToSeconds_no_group s Hgroup).
Qed.

Lemma playerLoaded_seek_witness :
  playerLoaded (Some "1h30m"%string)
  = [setPlayerIsLoaded true; setCurrentTime (Finite 5400)]
  /\ playerLoaded (Some "soon"%string)
     = [setPlayerIsLoaded true; setCurrentTime (Finite 0)]
  /\ playerLoaded None = [setPlayerIsLoaded true].
Proof.
  split; [reflexivity|]. split; [|reflexivity].
  destruct (playerLoaded_seek (Some "soon"%string)) as [_ [_ [_ [_ H]]]].
  apply (H "soon"%string); [reflexivity | discriminate | reflexivity].
Defined.

(** ** The timers of [Player] *)

Lemma filter_filter {A : Type} (p q : A -> bool) (l : list A) :
  filter p (filter q l) = filter (fun x => q x && p x) l.
Proof.
  induction l as [|x l IH]; simpl; [reflexivity|].
  destruct (q x); simpl; [destruct (p x); now rewrite IH | exact IH].
Qed.

(** The cleanup removes the timeouts of the handles it is given, and no
    other. *)
Lemma Player_cleanup_filter (handles : list nat) : forall timers : Timers,
  next_handle (Player_cleanup handles timers) = next_handle timers
  /\ timeouts (Player_cleanup handles timers)
     = filter (fun entry => negb (existsb (Nat.eqb (fst entry)) handles))
              (timeouts timers).
Proof.
  induction handles as [|h hs IH]; intros timers; simpl.
  - split; [reflexivity|]. symmetry. apply filter_all, Forall_forall. now intros.
  - destruct (IH (clearTimeout h timers)) as [Hn Ht].
    unfold Player_cleanup in *. simpl. rewrite Hn, Ht. split; [reflexivity|].
    simpl. rewrite filter_filter. apply filter_ext. intros entry.
    now rewrite negb_orb.
Qed.

Lemma Player_effect_timers (event : PlayerEvent) (info : EventTimeInfo)
  (now_start now_end : Z) (timers : Timers) :
  let delays := Player_delays event info now_start now_end in
  let handles := seq (next_handle timers) (List.length delays) in
  Player_effect event info now_start now_end timers
  = (handles,
     {| next_handle := (next_handle timers + List.length delays)%nat;
        timeouts := timeouts timers ++ combine handles delays |}).
Proof.
  unfold Player_effect, Player_delays, setTimeout.
  destruct (isLive event && is_false (hasStarted info));
    destruct (isLive event && is_false (hasEnded info)); simpl;
    rewrite ?app_nil_r, <- ?app_assoc, ?Nat.add_0_r; simpl;
    repeat f_equal; try lia; destruct timers; reflexivity.
Qed.

Lemma Player_delays_length (event : PlayerEvent) (info : EventTimeInfo)
  (now_start now_end : Z) :
  (List.length (Player_delays event info now_start now_end) <= 2)%nat.
Proof.
  unfold Player_delays.
  destruct (isLive event && is_false (hasStarted info));
    destruct (isLive event && is_false (hasEnded info)); simpl; lia.
Qed.

Lemma timers_ok_cleanup (handles : list nat) (timers : Timers) :
  timers_ok timers -> timers_ok (Player_cleanup handles timers).
Proof.
  unfold timers_ok. destruct (Player_cleanup_filter handles timers) as [-> ->].
  intros H. apply Forall_forall. intros entry Hin. apply filter_In in Hin.
  rewrite Forall_forall in H. now apply H.
Qed.

(** One effect and the cleanup it returns. *)
Lemma Player_effect_then_cleanup (event : PlayerEvent) (info : EventTimeInfo)
  (now_start now_end : Z) (timers : Timers) :
  timers_ok timers ->
  let after := Player_effect event info now_start now_end timers in
  timers_ok (snd after)
  /\ List.length (timeouts (snd after))
     = (List.length (timeouts timers) + List.length (fst after))%nat
  /\ (List.length (fst after) <= 2)%nat
  /\ timeouts (Player_cleanup (fst after) (snd after)) = timeouts timers.
Proof.
  intros Hok. cbv zeta. rewrite Player_effect_timers. cbv zeta. simpl fst. simpl snd.
  set (delays := Player_delays event info now_start now_end).
  set (handles := seq (next_handle timers) (List.length delays)).
  assert (Hlen : List.length handles = List.length delays) by apply length_seq.
  split; [|split; [|split]].
  - unfold timers_ok in *. simpl. apply Forall_app. split.
    + apply Forall_impl with (2 := Hok). intros entry H. lia.
    + apply Forall_forall. intros [h d] Hin. apply in_combine_l in Hin.
      apply in_seq in Hin. simpl. lia.
  - simpl. rewrite length_app, length_combine, Hlen. lia.
  - rewrite Hlen. apply Player_delays_length.
  - destruct (Player_cleanup_filter handles
                {| next_handle := (next_handle timers + List.length delays)%nat;
                   timeouts := timeouts timers ++ combine handles delays |})
      as [_ ->].
    simpl. rewrite filter_app.
    rewrite (filter_all _ (timeouts timers)), filter_none; [apply app_nil_r | |].
    + apply Forall_forall. intros [h d] Hin. apply in_combine_l in Hin. simpl.
      apply negb_false_iff, existsb_exists. exists h. split; [exact Hin|].
      apply Nat.eqb_refl.
    + unfold timers_ok in Hok. apply Forall_impl with (2 := Hok).
      intros entry Hlt. apply negb_true_iff, not_true_is_false. intros Hex.
      apply existsb_exists in Hex. destruct Hex as [h [Hin Heq]].
      apply Nat.eqb_eq in Heq. apply in_seq in Hin. lia.
Qed.

Lemma Player_renders_invariant (renders : list Render) :
  forall (handles : list nat) (timers start : Timers),
    timers_ok timers ->
    timeouts (Player_cleanup handles timers) = timeouts start ->
    (List.length (timeouts timers) <= List.length (timeouts start) + 2)%nat ->
    let after := Player_renders renders handles timers in
    timers_ok (snd after)
    /\ timeouts (Player_cleanup (fst after) (snd after)) = timeouts start
    /\ (List.length (timeouts (snd after)) <= List.length (timeouts start) + 2)%nat.
Proof.
  induction renders as [|r rest IH]; intros handles timers start Hok Hclean Hlen.
  - simpl. now repeat split.
  - cbv zeta. simpl Player_renders.
    pose proof (Player_effect_then_cleanup (render_event r) (render_info r)
                  (render_now_start r) (render_now_end r)
                  (Player_cleanup handles timers)
                  (timers_ok_cleanup handles timers Hok)) as Hstep.
    cbv zeta in Hstep.
    destruct (Player_effect (render_event r) (render_info r) (render_now_start r)
                (render_now_end r) (Player_cleanup handles timers))
      as [handles' timers'].
    simpl fst in Hstep. simpl snd in Hstep.
    destruct Hstep as [Hok' [Hlen' [Htwo Hclean']]].
    apply IH; [exact Hok' | congruence | rewrite Hlen', Hclean; lia].
Qed.

(** X10: the timers of [Player] never pile up.  Over any number of renders,
    each running the cleanup of the render before and then the effect, the
    page holds at most two timeouts more than before the first render, and
    the cleanup of the last render leaves exactly the timeouts that were
    there before: every timeout the effect sets is cleared, and no timeout of
    anybody else is. *)
Theorem Player_timers_do_not_pile_up (renders : list Render) (timers : Timers) :
  timers_ok timers ->
  let after := Player_renders renders [] timers in
  (List.length (timeouts (snd after)) <= List.length (timeouts timers) + 2)%nat
  /\ timeouts (Player_cleanup (fst after) (snd after)) = timeouts timers.
Proof.
  intros Hok.
  destruct (Player_renders_invariant renders [] timers timers Hok eq_refl)
    as [_ [Hclean Hlen]]; [lia|].
  now split.
Qed.

Lemma Player_timers_do_not_pile_up_witness :
  let pending_render :=
    {| render_event := sample_event true [];
       render_info := sample_info (Some false) (Some false);
       render_now_start := 1704067100000;
       render_now_end := 1704067100001 |} in
  let page := {| next_handle := 8; timeouts := [(3%nat, 250)] |} in
  map fst (timeouts (snd (Player_renders [pending_render; pending_render] [] page)))
  = [3; 10; 11]%nat
  /\ timeouts (Player_cleanup
                 (fst (Player_renders [pending_render; pending_render] [] page))
                 (snd (Player_renders [pending_render; pending_render] [] page)))
     = [(3%nat, 250)].
Proof.
  cbv zeta. split; [reflexivity|].
  apply (Player_timers_do_not_pile_up
           [{| render_event := sample_event true [];
               render_info := sample_info (Some false) (Some false);
               render_now_start := 1704067100000;
               render_now_end := 1704067100001 |};
            {| render_event := sample_event true [];
               render_info := sample_info (Some false) (Some false);
               render_now_start := 1704067100000;
               render_now_end := 1704067100001 |}]
           {| next_handle := 8; timeouts := [(3%nat, 250)] |}).
  repeat constructor.
Defined.

(** X11: what [Player] schedules follows what it shows.  While it shows
    the pending placeholder, the effect sets a timeout for the start, and
    after it one for the end exactly when [hasEnded] is [false]; when it
    shows the ended placeholder, or the event is not live, the effect sets
    nothing and leaves the timers as they are; while it shows the player of
    a live event, it sets one timeout, for the end, exactly when [hasEnded]
    is [false].  The handles it collects are those of the timeouts it set,
    and no delay it hands to [setTimeout] exceeds 2147483647. *)
Theorem Player_schedules_what_it_shows (event : PlayerEvent) (info : EventTimeInfo)
  (now_start now_end : Z) (timers : Timers) :
  let after := Player_effect event info now_start now_end timers in
  let first := next_handle timers in
  let till_start := delayTill (info_startTime info) now_start in
  let till_end := delayTill (info_endTime info) now_end in
  ((exists start, Player event info = LiveEventPlaceholder (pending start)) ->
   (is_false (hasEnded info) = false ->
    after = ([first],
             {| next_handle := S first;
                timeouts := timeouts timers ++ [(first, till_start)] |}))
   /\ (is_false (hasEnded info) = true ->
       after = ([first; S first],
                {| next_handle := S (S first);
                   timeouts := timeouts timers
                               ++ [(first, till_start); (S first, till_end)] |})))
  /\ (Player event info = LiveEventPlaceholder ended -> after = ([], timers))
  /\ (isLive event = false -> after = ([], timers))
  /\ (isLive event = true -> Player event info = LoadPaellaPlayer event ->
      (is_false (hasEnded info) = true ->
       after = ([first],
                {| next_handle := S first;
                   timeouts := timeouts timers ++ [(first, till_end)] |}))
      /\ (is_false (hasEnded info) = false -> after = ([], timers)))
  /\ Forall (fun entry => In entry (timeouts timers) \/ snd entry <= 2147483647)
            (timeouts (snd after)).
Proof.
  cbv zeta. split; [|split; [|split; [|split]]].
  - unfold Player, Player_effect, setTimeout. intros [start Hshow].
    destruct (isLive event), (hasStarted info) as [[|]|], (hasEnded info) as [[|]|];
      simpl in *; try discriminate Hshow;
      (split; intros Hended; [try discriminate Hended | try discriminate Hended]);
      rewrite <- ?app_assoc; reflexivity.
  - unfold Player, Player_effect, setTimeout. intros Hshow.
    destruct (isLive event), (hasStarted info) as [[|]|], (hasEnded info) as [[|]|];
      simpl in *; try discriminate Hshow; reflexivity.
  - unfold Player_effect. intros ->. reflexivity.
  - unfold Player, Player_effect, setTimeout. intros -> Hshow.
    destruct (hasStarted info) as [[|]|], (hasEnded info) as [[|]|];
      simpl in *; try discriminate Hshow;
      (split; intros Hended; [try discriminate Hended | try discriminate Hended]);
      reflexivity.
  - rewrite Player_effect_timers. cbv zeta. simpl snd. simpl timeouts.
    apply Forall_app. split.
    + apply Forall_forall. intros entry Hin. now left.
    + apply Forall_forall. intros [handle delay] Hin. right. simpl.
      apply in_combine_r in Hin. unfold Player_delays in Hin.
      apply in_app_or in Hin.
      destruct Hin as [Hin|Hin]; destruct (_ && _) in Hin; simpl in Hin;
        try contradiction; destruct Hin as [<-|Hin]; try contradiction;
        apply delayTill_upper.
Qed.

(** ** The life cycle of the engine *)

Section LifeCycle.

Variable t : string -> string.
Variable Date_getTime : string -> number.

Let manifest_of (props : Props.PaellaPlayerProps) : result (Manifest * list Diagnostic) :=
  PaellaPlayer_manifest t Date_getTime
    (Props.tracks props) (Props.title props) (Props.duration props)
    (Props.isLive props) (Props.captions props) (Props.startTime props)
    (Props.endTime props) (Props.previewImage props).

(** The effect on an empty slot builds the manifest and the engine, or
    throws what the build throws. *)
Lemma PaellaPlayer_effect_empty_slot (time : option string)
  (props : Props.PaellaPlayerProps) (w : World) :
  paella_current w = None ->
  PaellaPlayer_effect t Date_getTime true time props w
  = match manifest_of props with
    | Ok (manifest, warnings) =>
        let state := {| player := List.length (instances w);
                        loadPromise := List.length (instances w) |} in
        Ok ({| paella_current := Some state;
               instances := instances w
                            ++ [{| loadVideoManifest := manifest; search_t := time |}];
               console := console w ++ warnings;
               on_load := on_load w |},
            Some (Some state))
    | Throw e => Throw e
    end.
Proof.
  intros Hslot. unfold PaellaPlayer_effect, manifest_of. simpl negb. cbv iota.
  rewrite Hslot.
  destruct (PaellaPlayer_manifest t Date_getTime _ _ _ _ _ _ _ _) as [[m log]|e];
    reflexivity.
Qed.

(** The effect on an occupied slot leaves everything as it is and takes the
    state of the slot as its snapshot. *)
Lemma PaellaPlayer_effect_occupied (time : option string)
  (props : Props.PaellaPlayerProps) (w : World) (s : PaellaState) :
  paella_current w = Some s ->
  PaellaPlayer_effect t Date_getTime true time props w = Ok (w, Some (Some s)).
Proof.
  intros Hslot. unfold PaellaPlayer_effect. simpl negb. cbv iota.
  rewrite Hslot. simpl. now rewrite Hslot.
Qed.

Lemma PaellaPlayer_cycles_run (mounts : list Mount) : forall w : World,
  paella_current w = None ->
  exists w',
    PaellaPlayer_cycles t Date_getTime mounts w = Ok w'
    /\ paella_current w' = None
    /\ instances w' = instances w ++ built_instances t Date_getTime mounts
    /\ on_load w'
       = on_load w
         ++ map (fun i => (i, i))
              (seq (List.length (instances w))
                   (List.length (built_instances t Date_getTime mounts))).
Proof.
  induction mounts as [|m rest IH]; intros w Hslot.
  - exists w. simpl. now rewrite !app_nil_r.
  - simpl PaellaPlayer_cycles. unfold built_instances. simpl flat_map.
    fold (built_instances t Date_getTime rest).
    destruct (mount_ref m) eqn:Href.
    + rewrite (PaellaPlayer_effect_empty_slot _ _ _ Hslot). unfold manifest_of.
      destruct (PaellaPlayer_manifest t Date_getTime _ _ _ _ _ _ _ _)
        as [[manifest warnings]|e].
      * cbv zeta. simpl.
        match goal with
        | |- exists w', PaellaPlayer_cycles _ _ _ ?w1 = _ /\ _ =>
            destruct (IH w1 eq_refl) as [w' [Hrun [Hnone [Hinst Hload]]]]
        end.
        simpl in Hinst, Hload. exists w'. split; [exact Hrun|].
        split; [exact Hnone|]. split.
        -- rewrite Hinst, <- app_assoc. reflexivity.
        -- rewrite Hload, <- app_assoc, length_app. simpl.
           rewrite Nat.add_1_r. reflexivity.
      * simpl. destruct (IH w Hslot) as [w' H]. exists w'. exact H.
    + unfold PaellaPlayer_effect. simpl.
      destruct (IH w Hslot) as [w' H]. exists w'. exact H.
Qed.

End LifeCycle.

Lemma unloaded_none (i k : nat) : forall n : nat,
  (i < n)%nat ->
  filter (fun entry : nat * nat => (fst entry =? i)%nat)
         (map (fun j => (j, j)) (seq n k)) = [].
Proof.
  induction k as [|k IH]; intros n Hlt; simpl; [reflexivity|].
  destruct (Nat.eqb_spec n i) as [E|_]; [lia|]. apply IH. lia.
Qed.

Lemma unloaded_once (i k : nat) : forall n : nat,
  (n <= i < n + k)%nat ->
  filter (fun entry : nat * nat => (fst entry =? i)%nat)
         (map (fun j => (j, j)) (seq n k)) = [(i, i)].
Proof.
  induction k as [|k IH]; intros n Hi; simpl; [lia|].
  destruct (Nat.eqb_spec n i) as [E|Hne].
  - subst n. rewrite unloaded_none by lia. reflexivity.
  - apply IH. lia.
Qed.

(** X12: mounted and unmounted in turn, [PaellaPlayer] leaks no engine.
    Starting with an empty slot, any sequence of effects, each followed by the
    cleanup it returned, runs without an exception of the cleanup (the
    snapshot is never undefined), ends with an empty slot, has constructed one
    engine for each mount whose [div] was there and whose manifest could be
    built, with the manifest and the [t] parameter of that mount, and has
    chained exactly one unload on the load promise of each of these engines:
    the unload of that very engine. *)
Theorem PaellaPlayer_unloads_every_engine
  (t : string -> string) (Date_getTime : string -> number)
  (mounts : list Mount) (w : World) :
  paella_current w = None ->
  exists w',
    PaellaPlayer_cycles t Date_getTime mounts w = Ok w'
    /\ paella_current w' = None
    /\ instances w' = instances w ++ built_instances t Date_getTime mounts
    /\ forall i, (List.length (instances w) <= i < List.length (instances w'))%nat ->
                 unloaded_on i w' = unloaded_on i w ++ [i].
Proof.
  intros Hslot.
  destruct (PaellaPlayer_cycles_run t Date_getTime mounts w Hslot)
    as [w' [Hrun [Hnone [Hinst Hload]]]].
  exists w'. repeat split; try assumption.
  intros i Hi. unfold unloaded_on. rewrite Hload, filter_app, map_app.
  rewrite Hinst, length_app in Hi. now rewrite unloaded_once.
Qed.

Lemma PaellaPlayer_unloads_every_engine_witness :
  paella_current empty_world = None
  /\ exists w',
       PaellaPlayer_cycles sample_t sample_getTime
         [{| mount_ref := true; mount_t := Some "1m"%string;
             mount_props := sample_props [sample_track "a.mp4" "presenter/x"] |};
          {| mount_ref := true; mount_t := None;
             mount_props := sample_props [sample_track "b.mp4" "constructor/x"] |};
          {| mount_ref := true; mount_t := None;
             mount_props := sample_props [sample_track "c.mp4" "slides/x"] |}]
         empty_world = Ok w'
       /\ paella_current w' = None
       /\ instances w'
          = instances empty_world
            ++ built_instances sample_t sample_getTime
                 [{| mount_ref := true; mount_t := Some "1m"%string;
                     mount_props := sample_props [sample_track "a.mp4" "presenter/x"] |};
                  {| mount_ref := true; mount_t := None;
                     mount_props := sample_props [sample_track "b.mp4" "constructor/x"] |};
                  {| mount_ref := true; mount_t := None;
                     mount_props := sample_props [sample_track "c.mp4" "slides/x"] |}]
       /\ forall i,
            (List.length (instances empty_world) <= i < List.length (instances w'))%nat ->
            unloaded_on i w' = unloaded_on i empty_world ++ [i].
Proof.
  split; [reflexivity|].
  apply (PaellaPlayer_unloads_every_engine sample_t sample_getTime
           [{| mount_ref := true; mount_t := Some "1m"%string;
               mount_props := sample_props [sample_track "a.mp4" "presenter/x"] |};
            {| mount_ref := true; mount_t := None;
               mount_props := sample_props [sample_track "b.mp4" "constructor/x"] |};
            {| mount_ref := true; mount_t := None;
               mount_props := sample_props [sample_track "c.mp4" "slides/x"] |}]
           empty_world).
  reflexivity.
Defined.

(** X13: two mounts that share the slot share the engine.  When a second
    effect runs before the cleanup of the first, it builds nothing, whatever
    its props are (no manifest, no engine, no warning, no exception), and
    takes the state of the first as its snapshot; the two cleanups then chain
    the unload of the one engine twice on its load promise. *)
Theorem PaellaPlayer_overlapping_mounts
  (t : string -> string) (Date_getTime : string -> number)
  (time1 time2 : option string) (props1 props2 : Props.PaellaPlayerProps)
  (w : World) (manifest : Manifest) (warnings : list Diagnostic) :
  paella_current w = None ->
  PaellaPlayer_manifest t Date_getTime
    (Props.tracks props1) (Props.title props1) (Props.duration props1)
    (Props.isLive props1) (Props.captions props1) (Props.startTime props1)
    (Props.endTime props1) (Props.previewImage props1) = Ok (manifest, warnings) ->
  exists w1 s w3,
    PaellaPlayer_effect t Date_getTime true time1 props1 w = Ok (w1, Some (Some s))
    /\ PaellaPlayer_effect t Date_getTime true time2 props2 w1 = Ok (w1, Some (Some s))
    /\ bind (PaellaPlayer_cleanup (Some s) w1) (PaellaPlayer_cleanup (Some s)) = Ok w3
    /\ paella_current w3 = None
    /\ instances w3
       = instances w ++ [{| loadVideoManifest := manifest; search_t := time1 |}]
    /\ console w3 = console w ++ warnings
    /\ unloaded_on (loadPromise s) w3
       = unloaded_on (loadPromise s) w ++ [player s; player s].
Proof.
  intros Hslot Hbuild.
  pose proof (PaellaPlayer_effect_empty_slot t Date_getTime time1 props1 w Hslot) as H1.
  cbv beta zeta in H1. rewrite Hbuild in H1.
  eexists. eexists. eexists. split; [exact H1|]. split.
  - apply PaellaPlayer_effect_occupied. reflexivity.
  - simpl. split; [reflexivity|]. repeat split.
    unfold unloaded_on. simpl. rewrite <- app_assoc, filter_app, map_app. simpl.
    now rewrite Nat.eqb_refl.
Qed.

Lemma PaellaPlayer_overlapping_mounts_witness :
  exists manifest warnings,
    PaellaPlayer_manifest sample_t sample_getTime
      [sample_track "a.mp4" "presenter/x"] "Lecture" (of_Z 60) false [] None None None
    = Ok (manifest, warnings)
    /\ exists w1 s w3,
         PaellaPlayer_effect sample_t sample_getTime true None
           (sample_props [sample_track "a.mp4" "presenter/x"]) empty_world
         = Ok (w1, Some (Some s))
         /\ PaellaPlayer_effect sample_t sample_getTime true None
              (sample_props [sample_track "b.mp4" "constructor/x"]) w1
            = Ok (w1, Some (Some s))
         /\ bind (PaellaPlayer_cleanup (Some s) w1) (PaellaPlayer_cleanup (Some s))
            = Ok w3
         /\ paella_current w3 = None
         /\ instances w3
            = instances empty_world
              ++ [{| loadVideoManifest := manifest; search_t := None |}]
         /\ console w3 = console empty_world ++ warnings
         /\ unloaded_on (loadPromise s) w3
            = unloaded_on (loadPromise s) empty_world ++ [player s; player s].
Proof.
  eexists. eexists. split; [reflexivity|].
  apply (PaellaPlayer_overlapping_mounts sample_t sample_getTime None None
           (sample_props [sample_track "a.mp4" "presenter/x"])
           (sample_props [sample_track "b.mp4" "constructor/x"]) empty_world).
  - reflexivity.
  - reflexivity.
Defined.

(** ** Stream labels and flavors *)

(** What [s.split(sep)[0]] is: the text of [s] before the first separator. *)
Lemma first_piece_split (sep : ascii) (s : string) :
  occurs sep (first_piece (split sep s)) = false
  /\ (s = first_piece (split sep s)
      \/ exists r, s = (first_piece (split sep s) ++ String sep r)%string).
Proof.
  induction s as [|c s' [IHo IHs]]; simpl.
  - split; [reflexivity | now left].
  - destruct (Ascii.eqb_spec c sep) as [->|Hne]; simpl.
    + split; [reflexivity|]. right. now exists s'.
    + destruct (split sep s') as [|piece pieces]; simpl in *.
      * apply Ascii.eqb_neq in Hne. rewrite Hne. split; [reflexivity|].
        destruct IHs as [->|[r ->]]; [now left | right; now exists r].
      * apply Ascii.eqb_neq in Hne. rewrite Hne, IHo. split; [reflexivity|].
        destruct IHs as [E|[r E]]; [left | right; exists r]; now rewrite E at 1.
Qed.

(** X14: the label of a stream is the beginning of a flavor.  In every
    manifest that is built, no stream label contains a "/", and every stream
    label is, for some track of the input, either the whole flavor or the
    flavor's text before its first "/". *)
Theorem stream_labels_begin_flavors
  (t : string -> string) (Date_getTime : string -> number)
  (tracks : list Track) (title : string) (duration : number) (isLive : bool)
  (captions : list Caption) (startTime endTime previewImage : option string)
  (m : Manifest) (log : list Diagnostic) :
  PaellaPlayer_manifest t Date_getTime tracks title duration isLive captions
    startTime endTime previewImage = Ok (m, log) ->
  forall s, In s (streams m) ->
    occurs "/" (content s) = false
    /\ exists track,
         In track tracks
         /\ (flavor track = content s
             \/ exists rest, flavor track = (content s ++ String "/" rest)%string).
Proof.
  intros Hb s Hs.
  destruct (PaellaPlayer_manifest_inv _ _ _ _ _ _ _ _ _ _ _ _ Hb) as [o [Hg _]].
  pose proof (streams_of_entries _ _ _ _ _ _ _ _ _ _ _ _ _ Hb Hg) as Hmap.
  apply group_tracks_Ok in Hg. subst o.
  assert (Hin : In (content s, sources s)
                   (map (fun s => (content s, sources s)) (streams m)))
    by (apply in_map_iff; now exists s).
  rewrite Hmap in Hin. apply in_map_iff in Hin. destruct Hin as [e [He Hin]].
  apply (Permutation_in _ (Object_entries_Permutation _)) in Hin.
  apply In_groups_of in Hin. destruct Hin as [Hk _].
  apply In_kinds in Hk. destruct Hk as [track [Htrack Hkind]].
  assert (Hc : kind_of track = content s) by (rewrite Hkind; now injection He).
  destruct (first_piece_split "/" (flavor track)) as [Ho Hd].
  fold (kind_of track) in Ho, Hd. rewrite Hc in Ho, Hd.
  split; [exact Ho|]. exists track. split; [exact Htrack|].
  destruct Hd as [E|[r E]]; [now left | right; now exists r].
Qed.

Lemma stream_labels_begin_flavors_witness :
  exists m log,
    PaellaPlayer_manifest sample_t sample_getTime
      [sample_track "a.mp4" "presenter/delivery/hd"; sample_track "b.mp4" "slides"]
      "Lecture" (of_Z 60) false [] None None None = Ok (m, log)
    /\ forall s, In s (streams m) ->
         occurs "/" (content s) = false
         /\ exists track,
              In track [sample_track "a.mp4" "presenter/delivery/hd";
                        sample_track "b.mp4" "slides"]
              /\ (flavor track = content s
                  \/ exists rest,
                       flavor track = (content s ++ String "/" rest)%string).
Proof.
  eexists. eexists. split; [reflexivity|].
  eapply (stream_labels_begin_flavors sample_t sample_getTime
            [sample_track "a.mp4" "presenter/delivery/hd"; sample_track "b.mp4" "slides"]
            "Lecture"%string (of_Z 60) false [] None None None).
  reflexivity.
Defined.

(** ** [InlinePlayer] *)

(** X15: [InlinePlayer] shows what [Player] shows, for an event that has a
    track.  It returns an element exactly when the event has at least one
    track, and the element is then the one [Player] renders: the aspect ratio
    it computes first decides nothing but whether it throws.  For an event
    without tracks it shows nothing, not even the placeholder of a live event
    that has not started. *)
Theorem InlinePlayer_renders_Player (event : PlayerEvent) (info : EventTimeInfo)
  (element : Element) :
  InlinePlayer event info = Ok element
  <-> tracks (syncedData event) <> [] /\ element = Player event info.
Proof.
  unfold InlinePlayer, getPlayerAspectRatio.
  destruct (tracks (syncedData event)) as [|first rest] eqn:E.
  - simpl. split; [discriminate | intros [H _]; now contradiction H].
  - cbv zeta. simpl nth_error. cbv iota.
    destruct (1 <? _)%nat; simpl; (split;
      [intros H; injection H as <-; split; [discriminate | reflexivity]
      | intros [_ ->]; reflexivity]).
Qed.

(** ** The aspect ratio and the streams *)

(** [flavors.size > 1]: two tracks differ in their flavor. *)
Lemma flavors_differ (tracks : list Track) (a b : Track) :
  In a tracks -> In b tracks -> flavor a <> flavor b ->
  (1 <? List.length (nodup string_dec (map flavor tracks)))%nat = true.
Proof.
  intros Ha Hb Hne. apply Nat.ltb_lt.
  assert (Hincl : incl [flavor a; flavor b] (nodup string_dec (map flavor tracks))).
  { intros x [<-|[<-|[]]]; apply nodup_In; now apply in_map. }
  assert (Hnd : NoDup [flavor a; flavor b]).
  { constructor; [intros [E|[]]; congruence|]. constructor; [intros []|constructor]. }
  pose proof (NoDup_incl_length Hnd Hincl) as H. simpl in H. lia.
Qed.

Lemma flavors_agree (first : Track) (rest : list Track) :
  (forall track, In track rest -> flavor track = flavor first) ->
  (1 <? List.length (nodup string_dec (map flavor (first :: rest))))%nat = false.
Proof.
  intros Hall. apply Nat.ltb_ge.
  assert (Hincl : incl (nodup string_dec (map flavor (first :: rest))) [flavor first]).
  { intros x Hx. apply nodup_In in Hx. apply in_map_iff in Hx.
    destruct Hx as [track [<- [->|Hin]]]; left; [reflexivity|].
    symmetry. now apply Hall. }
  pose proof (NoDup_incl_length (NoDup_nodup string_dec _) Hincl) as H.
  simpl in H. exact H.
Qed.

Lemma kinds_of_streams
  (t : string -> string) (Date_getTime : string -> number)
  (tracks : list Track) (title : string) (duration : number) (isLive : bool)
  (captions : list Caption) (startTime endTime previewImage : option string)
  (m : Manifest) (log : list Diagnostic) :
  PaellaPlayer_manifest t Date_getTime tracks title duration isLive captions
    startTime endTime previewImage = Ok (m, log) ->
  List.length (streams m) = List.length (kinds tracks).
Proof.
  intros Hb.
  destruct (PaellaPlayer_manifest_inv _ _ _ _ _ _ _ _ _ _ _ _ Hb) as [o [Hg _]].
  pose proof (streams_of_entries _ _ _ _ _ _ _ _ _ _ _ _ _ Hb Hg) as Hs.
  apply group_tracks_Ok in Hg. subst o.
  apply (f_equal (@List.length _)) in Hs. rewrite !length_map in Hs.
  rewrite Hs, (Permutation_length (Object_entries_Permutation _)).
  unfold groups_of. apply length_map.
Qed.

(** X4: the aspect ratio in terms of the tracks and of the streams.  When
    two tracks differ in their flavor, the aspect ratio is 16:9; when all
    tracks share the flavor of the first, it is the resolution of the first,
    16:9 standing in for a [null] resolution.  So every event whose manifest
    has more than one stream gets 16:9; but not only those: two tracks of
    one kind with different flavors make one stream and still get 16:9,
    whatever their resolutions. *)
Theorem getPlayerAspectRatio_by_flavors :
  (forall (tracks : list Track) (a b : Track),
      In a tracks -> In b tracks -> flavor a <> flavor b ->
      getPlayerAspectRatio tracks = Ok [of_Z 16; of_Z 9])
  /\ (forall (first : Track) (rest : list Track),
        (forall track, In track rest -> flavor track = flavor first) ->
        getPlayerAspectRatio (first :: rest)
        = Ok (match resolution first with
              | Some r => r
              | None => [of_Z 16; of_Z 9]
              end))
  /\ (forall (t : string -> string) (Date_getTime : string -> number)
             (tracks : list Track) (title : string) (duration : number)
             (isLive : bool) (captions : list Caption)
             (startTime endTime previewImage : option string)
             (m : Manifest) (log : list Diagnostic),
        PaellaPlayer_manifest t Date_getTime tracks title duration isLive captions
          startTime endTime previewImage = Ok (m, log) ->
        (1 < List.length (streams m))%nat ->
        getPlayerAspectRatio tracks = Ok [of_Z 16; of_Z 9])
  /\ (forall (t : string -> string) (Date_getTime : string -> number)
             (a b : Track) (title : string) (duration : number)
             (isLive : bool) (captions : list Caption)
             (startTime endTime previewImage : option string),
        kind_of a = kind_of b -> flavor a <> flavor b ->
        inherited (kind_of a) = false ->
        exists m log,
          PaellaPlayer_manifest t Date_getTime [a; b] title duration isLive captions
            startTime endTime previewImage = Ok (m, log)
          /\ List.length (streams m) = 1%nat
          /\ getPlayerAspectRatio [a; b] = Ok [of_Z 16; of_Z 9]).
Proof.
  assert (Hdiffer : forall (tracks : list Track) (a b : Track),
             In a tracks -> In b tracks -> flavor a <> flavor b ->
             getPlayerAspectRatio tracks = Ok [of_Z 16; of_Z 9]).
  { intros tracks a b Ha Hb Hne. unfold getPlayerAspectRatio. cbv zeta.
    now rewrite (flavors_differ tracks a b Ha Hb Hne). }
  split; [exact Hdiffer|]. split; [|split].
  - intros first rest Hall. unfold getPlayerAspectRatio. cbv zeta.
    now rewrite (flavors_agree first rest Hall).
  - intros t Date_getTime tracks title duration isLive captions startTime endTime
           previewImage m log Hb Hlen.
    rewrite (kinds_of_streams _ _ _ _ _ _ _ _ _ _ _ _ Hb) in Hlen.
    pose proof (distinct_NoDup (map kind_of tracks)) as Hnd. fold (kinds tracks) in Hnd.
    destruct (kinds tracks) as [|k1 [|k2 ks]] eqn:Hk; simpl in Hlen; try lia.
    assert (H1 : In k1 (kinds tracks)) by (rewrite Hk; now left).
    assert (H2 : In k2 (kinds tracks)) by (rewrite Hk; right; now left).
    apply In_kinds in H1. apply In_kinds in H2.
    destruct H1 as [a [Ha Hka]]. destruct H2 as [b [Hb' Hkb]].
    apply (Hdiffer tracks a b Ha Hb'). intros E.
    apply NoDup_cons_iff in Hnd. destruct Hnd as [Hnotin _]. apply Hnotin. left.
    rewrite <- Hka, <- Hkb. unfold kind_of. now rewrite E.
  - intros t Date_getTime a b title duration isLive captions startTime endTime
           previewImage Hk Hne Hinh.
    assert (Hok : Forall (fun tr => inherited (kind_of tr) = false) [a; b]).
    { repeat constructor; [exact Hinh | now rewrite <- Hk]. }
    destruct (streams_per_kind t Date_getTime [a; b] title duration isLive captions
                startTime endTime previewImage Hok) as [m [log [Hb _]]].
    exists m, log. split; [exact Hb|]. split.
    + rewrite (kinds_of_streams _ _ _ _ _ _ _ _ _ _ _ _ Hb).
      unfold kinds. simpl. now rewrite Hk, String.eqb_refl.
    + apply (Hdiffer [a; b] a b); [now left | right; now left | exact Hne].
Qed.

(** A camera in two qualities: one stream, two flavors. *)
Lemma getPlayerAspectRatio_by_flavors_witness :
  (exists m log,
      PaellaPlayer_manifest sample_t sample_getTime
        [sample_track "hd.mp4" "presenter/hd"; sample_track "sd.mp4" "presenter/sd"]
        "Lecture" (of_Z 60) false [] None None None = Ok (m, log)
      /\ List.length (streams m) = 1%nat
      /\ getPlayerAspectRatio
           [sample_track "hd.mp4" "presenter/hd"; sample_track "sd.mp4" "presenter/sd"]
         = Ok [of_Z 16; of_Z 9])
  /\ getPlayerAspectRatio
       [sample_track "a.mp4" "presenter/hd"; sample_track "b.mp4" "slides/hd"]
     = Ok [of_Z 16; of_Z 9].
Proof.
  destruct getPlayerAspectRatio_by_flavors as [_ [_ [Hstreams Hone]]]. split.
  - apply (Hone sample_t sample_getTime
             (sample_track "hd.mp4" "presenter/hd") (sample_track "sd.mp4" "presenter/sd")
             "Lecture"%string (of_Z 60) false [] None None None).
    + reflexivity.
    + discriminate.
    + reflexivity.
  - eapply (Hstreams sample_t sample_getTime
              [sample_track "a.mp4" "presenter/hd"; sample_track "b.mp4" "slides/hd"]
              "Lecture"%string (of_Z 60) false [] None None None).
    + reflexivity.
    + simpl. lia.
Defined.
